(** * Scroll-driven section activation and background crossfade

    A shallow embedding of the hooks of [src/app/page.tsx] that carry the
    logic of the landing page: [useScrollProgress], [hexToRgb] / [mixHex],
    [usePreloadedImages], [useActiveSection] (with its [commitBest]), the
    display state of [DivisionBackgroundCrossfade], [useCenterFocusOpacity],
    [useAmbientAudio] and the role cards.

    Conventions of the embedding.
    - In the scroll progress and in the colour mix a JavaScript [number] is
      an exact rational ([Q]).  The active-section detector and the focus
      opacity run on IEEE binary64 ([PrimFloat]), the arithmetic of the
      page; [commitBest] is written once over an abstract arithmetic and
      instantiated there.
    - A [Map<string, number>] is a [gmap string _]; a [Set<string>] is the
      duplicate-free list of its elements in insertion order.
    - React state is explicit: a hook is a record of its state cells and a
      transition function over the events the browser delivers to it. *)

From Stdlib Require Import Ascii String ZArith QArith Qround Qminmax Lqa Floats DecimalString.
From stdpp Require Import gmap strings list.

#[local] Set Warnings "-inexact-float".
Local Open Scope Z_scope.

(** ** Scroll progress *)

Module Scroll.

(** The metrics read from [document.documentElement]. *)
Record metrics := Metrics {
  scrollTop : Q;
  scrollHeight : Q;
  clientHeight : Q
}.

(** [Math.min(1, Math.max(0, x))]. *)
Definition clamp01 (x : Q) : Q := Qmin 1 (Qmax 0 x).

(** The value handed to [setP] by [onScroll]. *)
Definition onScroll (doc : metrics) : Q :=
  let max := (scrollHeight doc - clientHeight doc)%Q in
  if Qle_bool max 0 then 0%Q
  else Qmin 1 (Qmax 0 (scrollTop doc / max)).

End Scroll.

(** ** Tint interpolation *)

Module Tint.

Record rgb := Rgb { r : Z; g : Z; b : Z }.

Definition lerp (a b t : Q) : Q := (a + (b - a) * t)%Q.

(** [Math.round]: the nearest integer, halves going up. *)
Definition Math_round (x : Q) : Z := Qfloor (x + (1 # 2)).

(** [String.prototype.replace("#", "")]: drops the first ["#"]. *)
Fixpoint removeFirstHash (s : string) : string :=
  match s with
  | EmptyString => EmptyString
  | String c rest =>
      if Ascii.eqb c "#"%char then rest else String c (removeFirstHash rest)
  end.

Definition hexDigit (c : ascii) : option Z :=
  let n := Z.of_nat (nat_of_ascii c) in
  if (48 <=? n) && (n <=? 57) then Some (n - 48)
  else if (97 <=? n) && (n <=? 102) then Some (n - 87)
  else if (65 <=? n) && (n <=? 70) then Some (n - 55)
  else None.

(** The value of the longest prefix of hexadecimal digits. *)
Fixpoint hexPrefix (acc : Z) (s : string) : Z :=
  match s with
  | EmptyString => acc
  | String c rest =>
      match hexDigit c with
      | Some d => hexPrefix (acc * 16 + d) rest
      | None => acc
      end
  end.

Definition isWhite (c : ascii) : bool :=
  let n := nat_of_ascii c in
  (n =? 32)%nat || ((9 <=? n)%nat && (n <=? 13)%nat).

Fixpoint trimStart (s : string) : string :=
  match s with
  | String c rest => if isWhite c then trimStart rest else s
  | EmptyString => s
  end.

Definition stripSign (s : string) : Z * string :=
  match s with
  | String "-" rest => (-1, rest)
  | String "+" rest => (1, rest)
  | _ => (1, s)
  end.

Definition strip0x (s : string) : string :=
  match s with
  | String "0" (String "x" rest) => rest
  | String "0" (String "X" rest) => rest
  | _ => s
  end.

(** [parseInt(s, 16)]; [None] is [NaN].  Exact below 2^53. *)
Definition parseInt16 (s : string) : option Z :=
  let '(sign, body) := stripSign (trimStart s) in
  let digits := strip0x body in
  match digits with
  | EmptyString => None
  | String c _ =>
      match hexDigit c with
      | Some _ => Some (sign * hexPrefix 0 digits)
      | None => None
      end
  end.

(** [ToInt32], applied by [>>] and [&] to their left operand. *)
Definition toInt32 (n : option Z) : Z :=
  match n with
  | None => 0
  | Some z => (z + 2 ^ 31) mod 2 ^ 32 - 2 ^ 31
  end.

Definition hexToRgb (hex : string) : rgb :=
  let h := removeFirstHash hex in
  let bigint := toInt32 (parseInt16 h) in
  {| r := Z.land (Z.shiftr bigint 16) 255;
     g := Z.land (Z.shiftr bigint 8) 255;
     b := Z.land bigint 255 |}.

(** The three rounded channels computed by [mixHex]. *)
Definition mixChannels (a b : string) (t : Q) : rgb :=
  let A := hexToRgb a in
  let B := hexToRgb b in
  {| r := Math_round (lerp (inject_Z (r A)) (inject_Z (r B)) t);
     g := Math_round (lerp (inject_Z (g A)) (inject_Z (g B)) t);
     b := Math_round (lerp (inject_Z (Tint.b A)) (inject_Z (Tint.b B)) t) |}.

(** An integer inside a template literal. *)
Definition showZ (z : Z) : string := NilZero.string_of_int (Z.to_int z).

Definition rgbString (c : rgb) : string :=
  "rgb(" +:+ showZ (r c) +:+ ", " +:+ showZ (g c) +:+ ", " +:+ showZ (b c) +:+ ")".

Definition mixHex (a b : string) (t : Q) : string :=
  rgbString (mixChannels a b t).

End Tint.

(** ** Image preloader *)

Module Preload.

(** [Set.prototype.has] and [Set.prototype.add] on an insertion-ordered set. *)
Definition has (loaded : list string) (url : string) : bool :=
  bool_decide (url ∈ loaded).

Definition add (loaded : list string) (url : string) : list string :=
  if has loaded url then loaded else loaded ++ [url].

(** [!url] for a string. *)
Definition falsy (url : string) : bool := bool_decide (url = "").

(** [isLoaded(url?: string | null)]; [None] stands for [null] and
    [undefined]. *)
Definition isLoaded (loaded : list string) (url : option string) : bool :=
  match url with
  | None => true
  | Some u => if falsy u then true else has loaded u
  end.

(** How the awaited decode of one image settles. *)
Inductive outcome := Resolved | Rejected.

(** Where the asynchronous function [run] stands. *)
Inductive phase :=
| Scheduled (urls : list string)          (* handed to the idle callback or timer *)
| Awaiting (url : string) (rest : list string)  (* suspended at the [await] *)
| Returned.

Record state := State {
  at_ : phase;
  loadedRef : list string;
  rerenders : nat;          (* the counter behind [forceRerender] *)
  cancelled : bool
}.

Definition init (urls : list string) : state :=
  State (Scheduled urls) [] 0 false.

(** The [for] loop from the top of an iteration up to the next [await]. *)
Fixpoint loopHead (cancelled : bool) (loaded : list string)
    (urls : list string) : phase :=
  match urls with
  | [] => Returned
  | url :: rest =>
      if cancelled then Returned
      else if falsy url || has loaded url then loopHead cancelled loaded rest
      else Awaiting url rest
  end.

(** The rest of an iteration, after the [try]/[catch] around the await. *)
Definition afterAwait (s : state) (url : string) (rest : list string) : state :=
  if cancelled s then State Returned (loadedRef s) (rerenders s) (cancelled s)
  else
    let loaded := add (loadedRef s) url in
    State (loopHead (cancelled s) loaded rest) loaded (S (rerenders s))
          (cancelled s).

Inductive event :=
| Run                      (* the idle callback or the timer fires *)
| Settle (o : outcome)     (* the decode in flight resolves or rejects *)
| Turn                     (* any other turn of the event loop *)
| Cleanup.                 (* the cleanup of the effect *)

Definition step (s : state) (e : event) : state :=
  match e with
  | Run =>
      match at_ s with
      | Scheduled urls =>
          State (loopHead (cancelled s) (loadedRef s) urls) (loadedRef s)
                (rerenders s) (cancelled s)
      | _ => s
      end
  | Settle o =>
      match at_ s with
      | Awaiting url rest =>
          match o with
          | Resolved => afterAwait s url rest
          | Rejected => afterAwait s url rest   (* [catch {}] *)
          end
      | _ => s
      end
  | Turn => s
  | Cleanup => State (at_ s) (loadedRef s) (rerenders s) true
  end.

Definition exec (s : state) (evs : list event) : state :=
  fold_left step evs s.

(** One decode as the event loop sees it: [latency] unrelated turns, then
    the settlement. *)
Record decode := Decode { latency : nat; result : outcome }.

Definition decodeEvents (d : decode) : list event :=
  repeat Turn (latency d) ++ [Settle (result d)].

(** A run that is never torn down: the callback fires after [delay] turns,
    then the decodes settle one after the other. *)
Definition schedule (delay : nat) (ds : list decode) : list event :=
  repeat Turn delay ++ Run :: concat (map decodeEvents ds).

(** The urls a complete run adds, in order: each non-empty url at its first
    occurrence, unless it is in [seen] already. *)
Fixpoint firstOccurrences (seen urls : list string) : list string :=
  match urls with
  | [] => []
  | url :: rest =>
      if falsy url || has seen url then firstOccurrences seen rest
      else url :: firstOccurrences (seen ++ [url]) rest
  end.

(** The registry of a run that has not been torn down, measured against the
    list [target] it is filling: nothing before the run starts, everything
    once it has returned, and in between what precedes the url in flight. *)
Definition inOrder (target : list string) (s : state) : Prop :=
  cancelled s = false /\
  match at_ s with
  | Scheduled urls => loadedRef s = [] /\ firstOccurrences [] urls = target
  | Awaiting url rest =>
      (url ∉ loadedRef s) /\
      loadedRef s ++ url :: firstOccurrences (loadedRef s ++ [url]) rest = target
  | Returned => loadedRef s = target
  end.

End Preload.

(** ** Background crossfade *)

Module Crossfade.

Record config := Config {
  image : option string;
  overlay : string;
  position : option string
}.

(** [DIVISIONS.*.*Image]. *)
Definition meaningImage : string := "/pics/meaning_img.JPG".
Definition patternImage : string := "/pics/pattern.JPG".
Definition mechanismImage : string := "/pics/mechanism.JPG".

Definition keyOf (active : string) : string :=
  if bool_decide (active = "hero") || bool_decide (active = "meaning")
     || bool_decide (active = "pattern") || bool_decide (active = "mechanism")
     || bool_decide (active = "work") || bool_decide (active = "involved")
  then active else "none".

Definition preloadUrls : list string :=
  [ "/pics/Vision_bg.png"; meaningImage; patternImage; mechanismImage;
    "/pics/work.JPG"; "/pics/involved.JPG" ].

Definition cfgFor (k : string) : option config :=
  if bool_decide (k = "meaning") then
    Some (Config (Some meaningImage)
      "linear-gradient(180deg, rgba(31,42,51,0) 0%, rgba(31,42,51,0.10) 6%, rgba(0,0,0,0.58) 100%)"
      None)
  else if bool_decide (k = "pattern") then
    Some (Config (Some patternImage)
      "linear-gradient(180deg, rgba(6, 50, 3, 0.2) 5%, rgba(4, 34, 2, 0.4) 22%, rgba(4, 34, 2, 0.70) 100%)"
      None)
  else if bool_decide (k = "mechanism") then
    Some (Config (Some mechanismImage)
      "linear-gradient(180deg, rgba(106, 66, 81, 0.20) 5%, rgba(106, 66, 81, 0.4) 8%, rgba(0,0,0,0.7) 100%)"
      None)
  else if bool_decide (k = "hero") then
    Some (Config (Some "/pics/Vision_bg.png") "rgba(8, 24, 36, 0.85)"
      (Some "center top -100px"))
  else if bool_decide (k = "work") then
    Some (Config (Some "/pics/work.JPG")
      "linear-gradient(180deg, rgba(245,247,246,0.3) 0%, rgba(245,247,246,0.3) 55%, rgba(245,247,246,0.3) 100%)"
      None)
  else if bool_decide (k = "involved") then
    Some (Config (Some "/pics/involved.JPG")
      "linear-gradient(180deg, rgba(245,247,246,0.5) 0%, rgba(245,247,246,0.5) 55%, rgba(245,247,246,0.5) 100%)"
      None)
  else None.

(** [cfgFor(k)?.image]. *)
Definition imageOf (k : string) : option string :=
  match cfgFor k with
  | Some c => image c
  | None => None
  end.

(** [!x] for [x : string | undefined]. *)
Definition absent (x : option string) : bool :=
  match x with
  | None => true
  | Some u => Preload.falsy u
  end.

(** The identity of the [isLoaded] callback at a render: [useCallback(..., [])]
    hands out one function object for the lifetime of the component, however
    often the preloader has forced a re-render. *)
Definition isLoadedIdentity (rerenders : nat) : nat := 0.

Record state := State {
  active : string;                       (* the prop of the last render *)
  lastDeps : option (string * nat);      (* [key, isLoaded] of the last effect run *)
  displayKey : string;
  preloader : Preload.state
}.

(** The body of the effect, run with the key of the current render. *)
Definition effect (key : string) (s : state) : state :=
  if bool_decide (key = "none") then
    State (active s) (lastDeps s) "none" (preloader s)
  else
    let next := imageOf key in
    if absent next || Preload.isLoaded (Preload.loadedRef (preloader s)) next
    then State (active s) (lastDeps s) key (preloader s)
    else s.

(** One render with the prop [a]: the effect runs when its dependency
    array differs from the one of its last run. *)
Definition render (a : string) (s : state) : state :=
  let key := keyOf a in
  let deps := (key, isLoadedIdentity (Preload.rerenders (preloader s))) in
  if bool_decide (lastDeps s = Some deps)
  then State a (lastDeps s) (displayKey s) (preloader s)
  else effect key (State a (Some deps) (displayKey s) (preloader s)).

(** The first render: [useState(key)], a fresh registry, then the effect. *)
Definition mount (a : string) : state :=
  render a (State a None (keyOf a) (Preload.init preloadUrls)).

Inductive event :=
| Active (a : string)               (* the parent renders with a new prop *)
| Preloader (e : Preload.event).    (* an event of the preloader's effect *)

Definition step (s : state) (e : event) : state :=
  match e with
  | Active a => render a s
  | Preloader pe =>
      let p := Preload.step (preloader s) pe in
      let s' := State (active s) (lastDeps s) (displayKey s) p in
      if bool_decide (Preload.rerenders p = Preload.rerenders (preloader s))
      then s'
      else render (active s) s'     (* [forceRerender] *)
  end.

Definition exec (s : state) (evs : list event) : state :=
  fold_left step evs s.

(** What the component draws: the configuration of the displayed key. *)
Definition rendered (s : state) : option config := cfgFor (displayKey s).

Definition renderedImage (s : state) : option string := imageOf (displayKey s).

Definition registry (s : state) : list string :=
  Preload.loadedRef (preloader s).

(** What every state reached from [mount mounted] satisfies: the effect last
    ran for the key of the current prop, and the displayed key is the one the
    component was mounted with or one whose image is registered. *)
Definition settled (mounted : string) (s : state) : Prop :=
  lastDeps s = Some (keyOf (active s), 0%nat) /\
  (displayKey s = keyOf mounted \/
   forall u : string, renderedImage s = Some u -> u ∈ registry s).

End Crossfade.

(** ** Active section *)

Module ActiveSection.

(** [a || b] on strings. *)
Definition orElse (a b : string) : string :=
  if Preload.falsy a then b else a.

(** [sectionIds[0] || ""]. *)
Definition firstOrEmpty (sectionIds : list string) : string :=
  match sectionIds with
  | [] => ""
  | id :: _ => orElse id ""
  end.

Section Arithmetic.

Context {num : Type}.
Variables (zero minusOne epsilon : num).
Variable plus : num -> num -> num.
Variable gt : num -> num -> bool.

(** [ratios.get(id) ?? 0]. *)
Definition scoreOf (ratios : gmap string num) (id : string) : num :=
  default zero (ratios !! id).

(** One iteration of the [for] loop over [sectionIds]. *)
Definition visit (ratios : gmap string num) (best : string * num)
    (id : string) : string * num :=
  let score := scoreOf ratios id in
  if gt score (plus (snd best) epsilon) then (id, score) else best.

(** The updater handed to [setActive] by [commitBest]. *)
Definition commitBest (sectionIds : list string) (ratios : gmap string num)
    (prev : string) : string :=
  let start := (orElse prev (firstOrEmpty sectionIds), minusOne) in
  let bestId := fst (fold_left (visit ratios) sectionIds start) in
  if Preload.falsy bestId then prev
  else if bool_decide (prev = bestId) then prev else bestId.

Record entry := Entry {
  target : string;
  isIntersecting : bool;
  intersectionRatio : num
}.

(** The body of the observer callback's loop. *)
Definition record (ratios : gmap string num) (e : entry) : gmap string num :=
  <[ target e := if isIntersecting e then intersectionRatio e else zero ]> ratios.

Record state := State {
  active : string;
  ratios : gmap string num;
  raf : bool;            (* a frame callback is pending *)
  observing : bool       (* the effect created its observer *)
}.

(** [useState(sectionIds[0] || "")], then the effect: the observer exists
    only when some section element is in the document. *)
Definition mount (sectionIds : list string) (inDocument : string -> bool)
    : state :=
  let elements := filter (fun id => inDocument id = true) sectionIds in
  State (firstOrEmpty sectionIds) ∅ false
        (negb (bool_decide (elements = []))).

Inductive event :=
| Entries (es : list entry)   (* the observer delivers a batch *)
| Frame.                      (* the animation frame fires *)

Definition step (sectionIds : list string) (s : state) (e : event) : state :=
  if observing s then
    match e with
    | Entries es =>
        State (active s) (fold_left record es (ratios s)) true (observing s)
    | Frame =>
        if raf s then
          State (commitBest sectionIds (ratios s) (active s)) (ratios s)
                false (observing s)
        else s
    end
  else s.

Definition exec (sectionIds : list string) (s : state) (evs : list event)
    : state :=
  fold_left (step sectionIds) evs s.

End Arithmetic.

(** The arithmetic of the page: IEEE binary64. *)
Definition gtF (a b : float) : bool := PrimFloat.ltb b a.
Definition commitBestF :=
  commitBest 0%float (-1)%float 1e-6%float PrimFloat.add gtF.
Definition stepF := step 0%float (-1)%float 1e-6%float PrimFloat.add gtF.
Definition execF := exec 0%float (-1)%float 1e-6%float PrimFloat.add gtF.
Definition mountF := mount (num := float).

(** A ratio the observer can deliver: a number, not negative, and one that
    adding the epsilon does not lower. *)
Definition ordinaryRatio (ratio : float) : bool :=
  negb (PrimFloat.is_nan ratio)
  && negb (PrimFloat.ltb ratio 0%float)
  && negb (PrimFloat.ltb (PrimFloat.add ratio 1e-6%float) ratio).

(** The list passed by the page. *)
Definition pageSections : list string :=
  [ "hero"; "meaning"; "pattern"; "mechanism"; "work"; "involved" ].

End ActiveSection.

(** ** Centre-focus opacity *)

Module Focus.

(** [Math.max] and [Math.min] on two numbers: [NaN] if either is, and the
    positive zero above the negative one. *)
Definition Math_max (a b : float) : float :=
  if PrimFloat.is_nan a || PrimFloat.is_nan b then PrimFloat.nan
  else if PrimFloat.ltb a b then b
  else if PrimFloat.ltb b a then a
  else if PrimFloat.get_sign a then b else a.

Definition Math_min (a b : float) : float :=
  if PrimFloat.is_nan a || PrimFloat.is_nan b then PrimFloat.nan
  else if PrimFloat.ltb a b then a
  else if PrimFloat.ltb b a then b
  else if PrimFloat.get_sign a then a else b.

(** The options of [useCenterFocusOpacity] with their defaults. *)
Record options := Options {
  minOpacity : float;
  maxOpacity : float;
  focusRadius : float
}.

Definition defaults : options := Options 0%float 1%float 0.6%float.

(** What [getBoundingClientRect] contributes. *)
Record rect := Rect { top : float; height : float }.

Record state := State {
  raf : bool;      (* an animation frame is requested *)
  raw : float      (* the motion value *)
}.

Inductive event :=
| ScrollOrResize                                      (* [onScrollOrResize] *)
| Frame (innerHeight : float) (el : option rect).     (* the requested frame fires *)

Section Platform.

(** [Math.pow], which the language leaves to the implementation. *)
Variable Math_pow : float -> float -> float.

(** The value [update] hands to [raw.set] for an element that exists. *)
Definition target (o : options) (innerHeight : float) (el : rect) : float :=
  let viewportCenter := (innerHeight / 2)%float in
  let elementCenter := (top el + height el / 2)%float in
  let maxDistance := Math_max 1%float (innerHeight * focusRadius o)%float in
  let distance := PrimFloat.abs (elementCenter - viewportCenter)%float in
  let clampedDistance :=
    if PrimFloat.leb distance (0.4 * maxDistance)%float then 0%float
    else distance in
  let t :=
    (1 - Math_pow (Math_min 1%float (clampedDistance / maxDistance)%float) 2)%float in
  let eased := (t * t)%float in
  (minOpacity o + (maxOpacity o - minOpacity o) * eased)%float.

(** [update]: clears [raf]; without an element nothing is set. *)
Definition update (o : options) (innerHeight : float) (el : option rect)
    (s : state) : state :=
  match el with
  | None => State false (raw s)
  | Some r => State false (target o innerHeight r)
  end.

(** [useMotionValue(maxOpacity)], then the effect calls [update] once. *)
Definition mount (o : options) (innerHeight : float) (el : option rect)
    : state :=
  update o innerHeight el (State false (maxOpacity o)).

Definition step (o : options) (s : state) (e : event) : state :=
  match e with
  | ScrollOrResize => if raf s then s else State true (raw s)
  | Frame innerHeight el => if raf s then update o innerHeight el s else s
  end.

Definition exec (o : options) (s : state) (evs : list event) : state :=
  fold_left (step o) evs s.

End Platform.

End Focus.

(** ** Ambient audio *)

Module Audio.

(** The table [AUDIO_TRACKS]. *)
Record tracks := Tracks {
  hero : string;
  meaning : string;
  pattern : string;
  mechanism : string
}.

Definition AUDIO_TRACKS : tracks := Tracks "" "" "" "".

(** The attributes of the [HTMLAudioElement] the hook touches. *)
Record audio := AudioElement {
  src : string;
  loop : bool;
  volume : Q;
  paused : bool
}.

(** [new Audio()]. *)
Definition newAudio : audio := AudioElement "" false 1 true.

Record state := State {
  audioRef : option audio;
  ready : bool;
  lastDeps : option (string * bool)    (* [activeId, enabled] of the last effect run *)
}.

Definition trackOf (t : tracks) (activeId : string) : string :=
  if bool_decide (activeId = "hero") then hero t
  else if bool_decide (activeId = "meaning") then meaning t
  else if bool_decide (activeId = "pattern") then pattern t
  else if bool_decide (activeId = "mechanism") then mechanism t
  else "".

Section Effect.

(** The url the [src] getter of the element answers for an attribute. *)
Variable resolve : string -> string.

(** The body of the effect. *)
Definition effect (t : tracks) (activeId : string) (enabled : bool)
    (s : state) : state :=
  if negb enabled then
    match audioRef s with
    | Some a =>
        State (Some (AudioElement "" (loop a) (volume a) true)) (ready s)
              (lastDeps s)
    | None => s
    end
  else
    let track := trackOf t activeId in
    if Preload.falsy track then s
    else
      let a :=
        match audioRef s with
        | Some a => a
        | None => AudioElement (src newAudio) true (35 # 100) (paused newAudio)
        end in
      if bool_decide (resolve (src a) = track)
      then State (Some a) (ready s) (lastDeps s)
      else State (Some (AudioElement track (loop a) (volume a) false))
                 (ready s) (lastDeps s).

Inductive event :=
| Props (activeId : string) (enabled : bool)   (* a render with these props *)
| PlaySettled (ok : bool).                     (* the promise of [play] settles *)

Definition step (t : tracks) (s : state) (e : event) : state :=
  match e with
  | Props activeId enabled =>
      if bool_decide (lastDeps s = Some (activeId, enabled)) then s
      else effect t activeId enabled
             (State (audioRef s) (ready s) (Some (activeId, enabled)))
  | PlaySettled ok => State (audioRef s) ok (lastDeps s)
  end.

(** The first render of the page: [useAmbientAudio(active, false)]. *)
Definition mount (t : tracks) (activeId : string) : state :=
  step t (State None false None) (Props activeId false).

Definition exec (t : tracks) (s : state) (evs : list event) : state :=
  fold_left (step t) evs s.

End Effect.

End Audio.

(** ** Role cards *)

Module RoleCard.

(** [ROLE_CARD_TOGGLE_MODE]. *)
Inductive mode := Auto | On | Off.

Definition ROLE_CARD_TOGGLE_MODE : mode := Auto.

(** [useRoleCardToggleEnabled], for a mode and the state of
    [useIsTouchLikeDevice]. *)
Definition useRoleCardToggleEnabled (m : mode) (touchLike : bool) : bool :=
  match m with
  | On => true
  | Off => false
  | Auto => touchLike
  end.

Record state := State {
  touchLike : bool;
  open : bool;
  listening : bool      (* the effect subscribed to the media query list *)
}.

(** The effect on [toggleEnabled]. *)
Definition closeIfDisabled (m : mode) (s : state) : state :=
  if negb (useRoleCardToggleEnabled m (touchLike s))
  then State (touchLike s) false (listening s) else s.

(** The first render and its effects; [matches] is [None] where
    [window.matchMedia] is not a function. *)
Definition mount (m : mode) (matches : option bool) : state :=
  match matches with
  | Some b => closeIfDisabled m (State b false true)
  | None => closeIfDisabled m (State false false false)
  end.

Inductive event :=
| MediaChange (matches : bool)          (* the media query list changes *)
| Click (onInteractive : bool)          (* [target.closest("a,button,...")] is not null *)
| KeyDown (key : string).

Definition isToggleKey (key : string) : bool :=
  bool_decide (key = "Enter") || bool_decide (key = " ").

Definition toggle (s : state) : state :=
  State (touchLike s) (negb (open s)) (listening s).

Definition step (m : mode) (s : state) (e : event) : state :=
  match e with
  | MediaChange matches =>
      if negb (listening s) then s
      else if bool_decide (useRoleCardToggleEnabled m matches
                           = useRoleCardToggleEnabled m (touchLike s))
      then State matches (open s) (listening s)
      else closeIfDisabled m (State matches (open s) (listening s))
  | Click onInteractive =>
      if negb (useRoleCardToggleEnabled m (touchLike s)) then s
      else if onInteractive then s
      else toggle s
  | KeyDown key =>
      if negb (useRoleCardToggleEnabled m (touchLike s)) then s
      else if negb (isToggleKey key) then s
      else toggle s
  end.

Definition exec (m : mode) (s : state) (evs : list event) : state :=
  fold_left (step m) evs s.

End RoleCard.

(** ** Shapes of colour strings *)

Module Hex.


End Hex.

(** ** Invariants of the preloader and of the crossfade *)

Module Invariants.

(** What every state of a preloader started on [urls] satisfies, torn down
    or not: the registry is the part of the first occurrences that precedes
    the url in flight, and every registration went with one re-render. *)
Definition tracked (urls : list string) (s : Preload.state) : Prop :=
  Preload.rerenders s = length (Preload.loadedRef s) /\
  match Preload.at_ s with
  | Preload.Scheduled us =>
      us = urls /\ Preload.loadedRef s = []
  | Preload.Awaiting url rest =>
      Preload.falsy url = false /\ (url ∉ Preload.loadedRef s) /\
      Preload.loadedRef s
        ++ url :: Preload.firstOccurrences (Preload.loadedRef s ++ [url]) rest
      = Preload.firstOccurrences [] urls
  | Preload.Returned =>
      Preload.loadedRef s `prefix_of` Preload.firstOccurrences [] urls
  end.

(** The crossfade once every image of the page is registered and the
    displayed key is the active key. *)
Definition synced (s : Crossfade.state) : Prop :=
  Crossfade.lastDeps s = Some (Crossfade.keyOf (Crossfade.active s), 0%nat) /\
  (forall u : string, u ∈ Crossfade.preloadUrls -> u ∈ Crossfade.registry s) /\
  Crossfade.displayKey s = Crossfade.keyOf (Crossfade.active s).

End Invariants.

(** * Properties *)

(** ** Scroll progress *)

Section ScrollFacts.
Import Scroll.
Local Open Scope Q_scope.

Lemma clamp01_bounds (x : Q) : 0 <= clamp01 x <= 1.
Proof.
  unfold clamp01. split.
  - apply Q.min_glb; [ discriminate | apply Q.le_max_l ].
  - apply Q.le_min_l.
Qed.

Lemma clamp01_id (x : Q) : 0 <= x <= 1 -> clamp01 x == x.
Proof.
  intros [H0 H1]. unfold clamp01.
  rewrite (Q.max_r 0 x) by exact H0.
  apply Q.min_r. exact H1.
Qed.

Lemma clamp01_mono (x y : Q) : x <= y -> clamp01 x <= clamp01 y.
Proof.
  intros H. unfold clamp01.
  apply Q.min_le_compat_l, Q.max_le_compat_l, H.
Qed.

Lemma onScroll_scrollable (s h c : Q) :
  0 < h - c -> onScroll (Metrics s h c) = clamp01 (s / (h - c)).
Proof.
  intros Hpos. unfold onScroll. cbn [scrollTop scrollHeight clientHeight].
  destruct (Qle_bool (h - c) 0) eqn:E; [ | reflexivity ].
  apply Qle_bool_iff in E. exfalso. exact (Qlt_not_le _ _ Hpos E).
Qed.

Lemma onScroll_not_scrollable (s h c : Q) :
  h - c <= 0 -> onScroll (Metrics s h c) = 0.
Proof.
  intros Hle. unfold onScroll. cbn [scrollTop scrollHeight clientHeight].
  apply Qle_bool_iff in Hle. rewrite Hle. reflexivity.
Qed.

Lemma ratio_in_unit (s m : Q) : 0 < m -> 0 <= s <= m -> 0 <= s / m <= 1.
Proof.
  intros Hm [H0 H1]. split.
  - apply Qle_shift_div_l; [ exact Hm | ]. rewrite Qmult_0_l. exact H0.
  - apply Qle_shift_div_r; [ exact Hm | ]. rewrite Qmult_1_l. exact H1.
Qed.

Lemma ratio_mono (s1 s2 m : Q) : 0 < m -> s1 <= s2 -> s1 / m <= s2 / m.
Proof.
  intros Hm H. unfold Qdiv. apply Qmult_le_compat_r; [ exact H | ].
  apply Qlt_le_weak, Qinv_lt_0_compat, Hm.
Qed.

Lemma onScroll_bounds (s h c : Q) : 0 <= onScroll (Metrics s h c) <= 1.
Proof.
  destruct (Qlt_le_dec 0 (h - c)) as [Hpos | Hle].
  - rewrite onScroll_scrollable by exact Hpos. apply clamp01_bounds.
  - rewrite onScroll_not_scrollable by exact Hle. split; discriminate.
Qed.

Lemma onScroll_mono (s s' h c : Q) :
  s <= s' -> onScroll (Metrics s h c) <= onScroll (Metrics s' h c).
Proof.
  intros Hs. destruct (Qlt_le_dec 0 (h - c)) as [Hpos | Hle].
  - rewrite !onScroll_scrollable by exact Hpos.
    apply clamp01_mono, ratio_mono; assumption.
  - rewrite !onScroll_not_scrollable by exact Hle. apply Qle_refl.
Qed.

Lemma onScroll_in_range (s h c : Q) :
  0 <= s <= h - c -> onScroll (Metrics s h c) == clamp01 (s / (h - c)).
Proof.
  intros [H0 H1]. destruct (Qlt_le_dec 0 (h - c)) as [Hpos | Hle].
  - rewrite onScroll_scrollable by exact Hpos. reflexivity.
  - rewrite onScroll_not_scrollable by exact Hle.
    assert (Hs : s == 0).
    { apply Qle_antisym; [ | exact H0 ]. apply Qle_trans with (h - c); assumption. }
    assert (Hq : s / (h - c) == 0).
    { unfold Qdiv. rewrite Hs. apply Qmult_0_l. }
    symmetry. rewrite clamp01_id; [ exact Hq | ].
    rewrite Hq. split; discriminate.
Qed.

(** C5: for a scroll offset [s] within [0, maxScroll] (where [maxScroll] is
    [scrollHeight - clientHeight]) the progress handed to [setP] is
    [s / maxScroll] clamped to the unit interval, and [s / maxScroll] itself
    when the page scrolls; it is non-decreasing in [s], it is 0 at offset 0,
    it is exactly 0 whenever [maxScroll <= 0], and it always lies in [0, 1]. *)
Theorem scroll_progress_clamped_monotone (s s' h c : Q) :
  (0 <= s <= h - c -> onScroll (Metrics s h c) == clamp01 (s / (h - c)))
  /\ (0 < h - c -> 0 <= s <= h - c -> onScroll (Metrics s h c) == s / (h - c))
  /\ (s <= s' -> onScroll (Metrics s h c) <= onScroll (Metrics s' h c))
  /\ onScroll (Metrics 0 h c) == 0
  /\ (h - c <= 0 -> onScroll (Metrics s h c) = 0)
  /\ 0 <= onScroll (Metrics s h c) <= 1.
Proof.
  split; [ apply onScroll_in_range | ].
  split.
  { intros Hpos Hs. rewrite onScroll_scrollable by exact Hpos.
    apply clamp01_id, ratio_in_unit; assumption. }
  split; [ apply onScroll_mono | ].
  split.
  { destruct (Qlt_le_dec 0 (h - c)) as [Hpos | Hle].
    - rewrite onScroll_scrollable by exact Hpos.
      rewrite clamp01_id.
      + unfold Qdiv. apply Qmult_0_l.
      + apply ratio_in_unit; [ exact Hpos | ].
        split; [ apply Qle_refl | apply Qlt_le_weak, Hpos ].
    - rewrite onScroll_not_scrollable by exact Hle. reflexivity. }
  split; [ apply onScroll_not_scrollable | apply onScroll_bounds ].
Qed.

(** The page is 1000 high in a viewport of 400; the offsets are 150 and 300. *)
Lemma scroll_progress_witness :
  onScroll (Metrics 150 1000 400) == 150 / (1000 - 400)
  /\ onScroll (Metrics 150 1000 400) <= onScroll (Metrics 300 1000 400)
  /\ onScroll (Metrics 150 400 1000) = 0.
Proof.
  pose proof (scroll_progress_clamped_monotone 150 300 1000 400)
    as (_ & Hratio & Hmono & _).
  pose proof (scroll_progress_clamped_monotone 150 300 400 1000)
    as (_ & _ & _ & _ & Hzero & _).
  split; [ apply Hratio; [ reflexivity | split; discriminate ] | ].
  split; [ apply Hmono; discriminate | apply Hzero; discriminate ].
Defined.

End ScrollFacts.

(** ** Tint interpolation *)

Section TintFacts.
Import Tint.

Lemma Qfloor_num_den (n : Z) (d : positive) : Qfloor (n # d) = n / Z.pos d.
Proof. reflexivity. Qed.

Lemma Math_round_integer (n : Z) : Math_round (inject_Z n) = n.
Proof.
  unfold Math_round.
  rewrite (Qfloor_comp _ ((2 * n + 1) # 2)).
  - rewrite Qfloor_num_den. Z.div_mod_to_equations. lia.
  - unfold Qeq, Qplus, inject_Z. cbn [Qnum Qden]. lia.
Qed.

Lemma lerp_at_0 (x y : Q) : (lerp x y 0 == x)%Q.
Proof. unfold lerp. ring. Qed.

Lemma lerp_at_1 (x y : Q) : (lerp x y 1 == y)%Q.
Proof. unfold lerp. ring. Qed.

Lemma lerp_at_half (x y : Z) :
  (lerp (inject_Z x) (inject_Z y) (1 # 2) + (1 # 2) == (x + y + 1) # 2)%Q.
Proof.
  unfold lerp, Qeq, Qplus, Qminus, Qmult, Qopp, inject_Z. simpl. lia.
Qed.

Lemma Math_round_lerp_0 (x y : Z) :
  Math_round (lerp (inject_Z x) (inject_Z y) 0) = x.
Proof.
  unfold Math_round. rewrite (Qfloor_comp _ (inject_Z x + (1 # 2))%Q).
  - apply Math_round_integer.
  - rewrite lerp_at_0. reflexivity.
Qed.

Lemma Math_round_lerp_1 (x y : Z) :
  Math_round (lerp (inject_Z x) (inject_Z y) 1) = y.
Proof.
  unfold Math_round. rewrite (Qfloor_comp _ (inject_Z y + (1 # 2))%Q).
  - apply Math_round_integer.
  - rewrite lerp_at_1. reflexivity.
Qed.

Lemma Math_round_lerp_half (x y : Z) :
  Math_round (lerp (inject_Z x) (inject_Z y) (1 # 2)) = (x + y + 1) / 2.
Proof.
  unfold Math_round. rewrite (Qfloor_comp _ _ (lerp_at_half x y)).
  apply Qfloor_num_den.
Qed.

Lemma rounded_midpoint_bracket (x y : Z) :
  2 * ((x + y + 1) / 2) - 1 <= x + y <= 2 * ((x + y + 1) / 2).
Proof. Z.div_mod_to_equations. lia. Qed.

Lemma mixChannels_at_0 (a b : string) : mixChannels a b 0 = hexToRgb a.
Proof.
  unfold mixChannels. rewrite !Math_round_lerp_0. destruct (hexToRgb a); reflexivity.
Qed.

Lemma mixChannels_at_1 (a b : string) : mixChannels a b 1 = hexToRgb b.
Proof.
  unfold mixChannels. rewrite !Math_round_lerp_1. destruct (hexToRgb b); reflexivity.
Qed.

Lemma hexDigit_range (c : ascii) (v : Z) : hexDigit c = Some v -> 0 <= v < 16.
Proof.
  destruct c as [[] [] [] [] [] [] [] []]; vm_compute; intros H;
    first [ discriminate H | injection H as <-; split; [ discriminate | reflexivity ] ].
Qed.

Lemma hexDigit_not_white (c : ascii) (v : Z) :
  hexDigit c = Some v -> isWhite c = false.
Proof.
  destruct c as [[] [] [] [] [] [] [] []]; vm_compute; intros H;
    first [ discriminate H | reflexivity ].
Qed.

Lemma hexDigit_no_sign (c : ascii) (v : Z) (rest : string) :
  hexDigit c = Some v -> stripSign (String c rest) = (1, String c rest).
Proof.
  destruct c as [[] [] [] [] [] [] [] []]; vm_compute; intros H;
    first [ discriminate H | reflexivity ].
Qed.

Lemma hexDigit_no_0x (c1 c2 : ascii) (v : Z) (rest : string) :
  hexDigit c2 = Some v ->
  strip0x (String c1 (String c2 rest)) = String c1 (String c2 rest).
Proof.
  destruct c2 as [[] [] [] [] [] [] [] []]; vm_compute; intros H;
    first [ discriminate H
          | destruct c1 as [[] [] [] [] [] [] [] []]; reflexivity ].
Qed.

(** A colour written as ["#"] and six hexadecimal digits decodes to the three
    bytes the digits spell. *)
Lemma hexToRgb_six_digits (c1 c2 c3 c4 c5 c6 : ascii) (v1 v2 v3 v4 v5 v6 : Z) :
  hexDigit c1 = Some v1 -> hexDigit c2 = Some v2 -> hexDigit c3 = Some v3 ->
  hexDigit c4 = Some v4 -> hexDigit c5 = Some v5 -> hexDigit c6 = Some v6 ->
  hexToRgb (String "#" (String c1 (String c2 (String c3 (String c4
             (String c5 (String c6 EmptyString)))))))
  = Rgb (16 * v1 + v2) (16 * v3 + v4) (16 * v5 + v6).
Proof.
  intros H1 H2 H3 H4 H5 H6.
  pose proof (hexDigit_range _ _ H1). pose proof (hexDigit_range _ _ H2).
  pose proof (hexDigit_range _ _ H3). pose proof (hexDigit_range _ _ H4).
  pose proof (hexDigit_range _ _ H5). pose proof (hexDigit_range _ _ H6).
  unfold hexToRgb. cbn [removeFirstHash Ascii.eqb Bool.eqb].
  unfold parseInt16. cbn [trimStart].
  rewrite (hexDigit_not_white _ _ H1), (hexDigit_no_sign _ _ _ H1).
  rewrite (hexDigit_no_0x _ _ _ _ H2), H1.
  cbn [hexPrefix]. rewrite H1, H2, H3, H4, H5, H6.
  set (n := (((((0 * 16 + v1) * 16 + v2) * 16 + v3) * 16 + v4) * 16 + v5) * 16 + v6).
  assert (Hn : 0 <= n < 2 ^ 24) by (subst n; lia).
  assert (Hi : toInt32 (Some (1 * n)) = n).
  { unfold toInt32. rewrite Z.mul_1_l.
    rewrite Z.mod_small by lia. lia. }
  rewrite Hi.
  change 255 with (Z.ones 8). rewrite !Z.land_ones by lia.
  rewrite !Z.shiftr_div_pow2 by lia.
  f_equal; subst n; Z.div_mod_to_equations; lia.
Qed.

(** C7, as the code has it: at [t = 0] the mixed colour is [A], at [t = 1] it
    is [B], channel by channel and hence as the printed [rgb(...)] string; at
    [t = 1/2] each channel is the midpoint of the two channels rounded to the
    nearest integer, a half going up: the channel [m] satisfies
    [2m - 1 <= a + b <= 2m]. *)
Theorem mixHex_boundaries_and_rounded_midpoint (a b : string) :
  mixHex a b 0 = rgbString (hexToRgb a)
  /\ mixHex a b 1 = rgbString (hexToRgb b)
  /\ mixChannels a b (1 # 2)
     = Rgb ((r (hexToRgb a) + r (hexToRgb b) + 1) / 2)
           ((g (hexToRgb a) + g (hexToRgb b) + 1) / 2)
           ((Tint.b (hexToRgb a) + Tint.b (hexToRgb b) + 1) / 2)
  /\ 2 * r (mixChannels a b (1 # 2)) - 1
       <= r (hexToRgb a) + r (hexToRgb b) <= 2 * r (mixChannels a b (1 # 2))
  /\ 2 * g (mixChannels a b (1 # 2)) - 1
       <= g (hexToRgb a) + g (hexToRgb b) <= 2 * g (mixChannels a b (1 # 2))
  /\ 2 * Tint.b (mixChannels a b (1 # 2)) - 1
       <= Tint.b (hexToRgb a) + Tint.b (hexToRgb b)
       <= 2 * Tint.b (mixChannels a b (1 # 2)).
Proof.
  assert (Hhalf : mixChannels a b (1 # 2)
     = Rgb ((r (hexToRgb a) + r (hexToRgb b) + 1) / 2)
           ((g (hexToRgb a) + g (hexToRgb b) + 1) / 2)
           ((Tint.b (hexToRgb a) + Tint.b (hexToRgb b) + 1) / 2)).
  { unfold mixChannels. rewrite !Math_round_lerp_half. reflexivity. }
  split; [ unfold mixHex; rewrite mixChannels_at_0; reflexivity | ].
  split; [ unfold mixHex; rewrite mixChannels_at_1; reflexivity | ].
  split; [ exact Hhalf | ].
  rewrite Hhalf. cbn [r g Tint.b].
  repeat split; apply rounded_midpoint_bracket.
Qed.

(** C7 as stated fails at [t = 1/2] when a channel sum is odd: the blue
    channels 0 and 1 have midpoint 1/2, and [mixHex] prints 1. *)
Lemma mixHex_half_is_not_the_exact_midpoint :
  mixHex "#000000" "#000001" (1 # 2) = "rgb(0, 0, 1)"
  /\ ~ (inject_Z (Tint.b (mixChannels "#000000" "#000001" (1 # 2)))
        == (inject_Z (Tint.b (hexToRgb "#000000"))
            + inject_Z (Tint.b (hexToRgb "#000001"))) / 2)%Q.
Proof.
  split; [ vm_compute; reflexivity | ].
  vm_compute. discriminate.
Qed.

Example hexToRgb_art : hexToRgb "#5FA58B" = Rgb 95 165 139.
Proof. reflexivity. Qed.

Example mixHex_dark_art :
  mixHex "#081824" "#5FA58B" (55 # 100) = "rgb(56, 102, 93)".
Proof. vm_compute. reflexivity. Qed.

End TintFacts.

(** ** Image preloader *)

Section PreloadFacts.
Import Preload.

Lemma has_true (loaded : list string) (url : string) :
  has loaded url = true <-> url ∈ loaded.
Proof. unfold has. apply bool_decide_eq_true. Qed.

Lemma has_false (loaded : list string) (url : string) :
  has loaded url = false <-> url ∉ loaded.
Proof. unfold has. apply bool_decide_eq_false. Qed.

Lemma falsy_true (url : string) : falsy url = true <-> url = "".
Proof. unfold falsy. apply bool_decide_eq_true. Qed.

Lemma falsy_false (url : string) : falsy url = false <-> url ≠ "".
Proof. unfold falsy. apply bool_decide_eq_false. Qed.

Lemma add_fresh (loaded : list string) (url : string) :
  url ∉ loaded -> add loaded url = loaded ++ [url].
Proof. intros H. unfold add. apply has_false in H. rewrite H. reflexivity. Qed.

Lemma elem_of_add (loaded : list string) (url u : string) :
  u ∈ add loaded url <-> u ∈ loaded \/ u = url.
Proof.
  unfold add. destruct (has loaded url) eqn:E.
  - apply has_true in E. split; [ auto | intros [H | ->]; assumption ].
  - rewrite elem_of_app, list_elem_of_singleton. reflexivity.
Qed.

(** C9: [isLoaded] answers [true] for a [null], [undefined] or empty url
    whatever the registry holds, and for a non-empty url it answers [true]
    exactly when the url is in the registry. *)
Theorem isLoaded_trivial_or_registered (loaded : list string) :
  isLoaded loaded None = true
  /\ isLoaded loaded (Some "") = true
  /\ (forall url : string,
        url ≠ "" -> (isLoaded loaded (Some url) = true <-> url ∈ loaded)).
Proof.
  split; [ reflexivity | ]. split; [ reflexivity | ].
  intros url Hne. unfold isLoaded.
  apply falsy_false in Hne. rewrite Hne. apply has_true.
Qed.

Lemma isLoaded_witness :
  isLoaded ["/pics/work.JPG"] (Some "/pics/work.JPG") = true
  /\ isLoaded ["/pics/work.JPG"] (Some "/pics/pattern.JPG") = false.
Proof.
  pose proof (isLoaded_trivial_or_registered ["/pics/work.JPG"]) as (_ & _ & H).
  split.
  - apply (H "/pics/work.JPG"); [ discriminate | ]. apply list_elem_of_singleton. reflexivity.
  - destruct (isLoaded ["/pics/work.JPG"] (Some "/pics/pattern.JPG")) eqn:E; [ | reflexivity ].
    apply (H "/pics/pattern.JPG") in E; [ | discriminate ].
    apply list_elem_of_singleton in E. discriminate E.
Defined.

Lemma exec_app (s : state) (evs1 evs2 : list event) :
  exec s (evs1 ++ evs2) = exec (exec s evs1) evs2.
Proof. apply fold_left_app. Qed.

Lemma exec_turns (s : state) (n : nat) : exec s (repeat Turn n) = s.
Proof. induction n as [| n IH]; [ reflexivity | exact IH ]. Qed.

Lemma step_returned (s : state) (e : event) :
  at_ s = Returned -> e ≠ Cleanup -> step s e = s.
Proof.
  intros Hat He. destruct e as [| o | |]; cbn [step]; try rewrite Hat;
    try reflexivity.
  contradiction He; reflexivity.
Qed.

Lemma exec_decodes_returned (s : state) (ds : list decode) :
  at_ s = Returned -> exec s (concat (map decodeEvents ds)) = s.
Proof.
  intros Hat. induction ds as [| d ds IH]; [ reflexivity | ].
  cbn [map concat]. unfold decodeEvents at 1.
  rewrite !exec_app, exec_turns. cbn [exec fold_left].
  rewrite step_returned by (exact Hat || discriminate). exact IH.
Qed.

(** A run that is past its scheduling and is never torn down: the decodes
    settle one by one and the loop returns with the registry extended by
    the first occurrences, whatever the latencies and the results. *)
Lemma exec_decodes (urls loaded : list string) (n : nat) (ds : list decode) :
  (length urls <= length ds)%nat ->
  exec (State (loopHead false loaded urls) loaded n false)
       (concat (map decodeEvents ds))
  = State Returned (loaded ++ firstOccurrences loaded urls)
          (n + length (firstOccurrences loaded urls)) false.
Proof.
  revert loaded n ds. induction urls as [| url rest IH]; intros loaded n ds Hlen.
  - cbn [loopHead firstOccurrences length].
    rewrite exec_decodes_returned by reflexivity.
    rewrite app_nil_r, Nat.add_0_r. reflexivity.
  - cbn [loopHead firstOccurrences].
    destruct (falsy url || has loaded url) eqn:E.
    + apply IH. cbn [length] in Hlen. lia.
    + destruct ds as [| d ds]; [ cbn [length] in Hlen; lia | ].
      cbn [map concat]. unfold decodeEvents at 1.
      rewrite !exec_app, exec_turns. cbn [exec fold_left].
      assert (Hstep : step (State (Awaiting url rest) loaded n false)
                           (Settle (result d))
                      = State (loopHead false (loaded ++ [url]) rest)
                              (loaded ++ [url]) (S n) false).
      { apply orb_false_iff in E as [_ Hhas].
        destruct (result d); cbn [step at_]; unfold afterAwait;
          cbn [cancelled loadedRef rerenders]; unfold add; rewrite Hhas;
          reflexivity. }
      rewrite Hstep. fold (exec (State (loopHead false (loaded ++ [url]) rest)
                                       (loaded ++ [url]) (S n) false)
                                (concat (map decodeEvents ds))).
      rewrite IH by (cbn [length] in Hlen; lia).
      cbn [length]. rewrite <- app_assoc. cbn [app].
      f_equal. lia.
Qed.

Lemma exec_schedule (urls : list string) (delay : nat) (ds : list decode) :
  (length urls <= length ds)%nat ->
  exec (init urls) (schedule delay ds)
  = State Returned (firstOccurrences [] urls)
          (length (firstOccurrences [] urls)) false.
Proof.
  intros Hlen. unfold schedule. rewrite exec_app, exec_turns.
  change (exec (init urls) (Run :: concat (map decodeEvents ds)))
    with (exec (State (loopHead false [] urls) [] 0 false)
               (concat (map decodeEvents ds))).
  rewrite exec_decodes by exact Hlen. reflexivity.
Qed.

Lemma elem_of_firstOccurrences (seen urls : list string) (u : string) :
  u ∈ firstOccurrences seen urls <-> u ∈ urls /\ u ≠ "" /\ u ∉ seen.
Proof.
  revert seen. induction urls as [| url rest IH]; intros seen.
  - cbn [firstOccurrences]. rewrite elem_of_nil.
    split; [ intros [] | intros [[] _] ].
  - cbn [firstOccurrences]. rewrite elem_of_cons.
    destruct (falsy url || has seen url) eqn:E.
    + rewrite IH. apply orb_true_iff in E.
      split; [ intros (? & ? & ?); auto | ].
      intros ([-> | Hin] & Hne & Hseen); [ exfalso | auto ].
      destruct E as [E | E];
        [ apply falsy_true in E | apply has_true in E ]; contradiction.
    + apply orb_false_iff in E as [Hf Hh].
      apply falsy_false in Hf. apply has_false in Hh.
      rewrite elem_of_cons, IH, elem_of_app, list_elem_of_singleton.
      split.
      * intros [-> | (Hin & Hne & Hseen)]; [ auto | ].
        split; [ auto | split; [ exact Hne | tauto ] ].
      * intros ([-> | Hin] & Hne & Hseen); [ auto | ].
        destruct (decide (u = url)) as [-> | Hneq]; [ auto | ].
        right. split; [ exact Hin | split; [ exact Hne | tauto ] ].
Qed.

Lemma NoDup_firstOccurrences (seen urls : list string) :
  NoDup (firstOccurrences seen urls).
Proof.
  revert seen. induction urls as [| url rest IH]; intros seen;
    cbn [firstOccurrences]; [ constructor | ].
  destruct (falsy url || has seen url); [ apply IH | ].
  constructor; [ | apply IH ].
  rewrite elem_of_firstOccurrences, elem_of_app, list_elem_of_singleton. tauto.
Qed.

Lemma sublist_firstOccurrences (seen urls : list string) :
  sublist (firstOccurrences seen urls) urls.
Proof.
  revert seen. induction urls as [| url rest IH]; intros seen;
    cbn [firstOccurrences]; [ constructor | ].
  destruct (falsy url || has seen url);
    [ apply sublist_cons, IH | apply sublist_skip, IH ].
Qed.

Lemma loopHead_inOrder (target rest loaded : list string) (n : nat) :
  loaded ++ firstOccurrences loaded rest = target ->
  inOrder target (State (loopHead false loaded rest) loaded n false).
Proof.
  revert loaded. induction rest as [| url rest IH]; intros loaded Htarget;
    cbn [loopHead firstOccurrences] in *.
  - split; [ reflexivity | ]. cbn [at_ loadedRef].
    rewrite app_nil_r in Htarget. exact Htarget.
  - destruct (falsy url || has loaded url) eqn:E; [ apply IH, Htarget | ].
    apply orb_false_iff in E as [_ Hh]. apply has_false in Hh.
    split; [ reflexivity | ]. cbn [at_ loadedRef]. split; assumption.
Qed.

Lemma step_inOrder (target : list string) (s : state) (e : event) :
  inOrder target s -> e ≠ Cleanup -> inOrder target (step s e).
Proof.
  intros Hinv He. destruct s as [ph loaded n c]. destruct Hinv as [Hc Hph].
  cbn [cancelled at_ loadedRef] in *. subst c.
  destruct e as [| o | |]; cbn [step at_ cancelled loadedRef rerenders].
  - destruct ph as [urls | url rest |]; try (split; [ reflexivity | exact Hph ]).
    destruct Hph as [-> Htarget]. apply loopHead_inOrder. exact Htarget.
  - destruct ph as [urls | url rest |]; try (split; [ reflexivity | exact Hph ]).
    destruct Hph as [Hfresh Htarget].
    assert (Hafter : afterAwait (State (Awaiting url rest) loaded n false) url rest
                     = State (loopHead false (loaded ++ [url]) rest)
                             (loaded ++ [url]) (S n) false).
    { unfold afterAwait. cbn [cancelled loadedRef rerenders].
      rewrite add_fresh by exact Hfresh. reflexivity. }
    destruct o; rewrite Hafter; apply loopHead_inOrder;
      rewrite <- app_assoc; exact Htarget.
  - split; [ reflexivity | exact Hph ].
  - contradiction He; reflexivity.
Qed.

Lemma exec_inOrder (target : list string) (evs : list event) (s : state) :
  inOrder target s -> Cleanup ∉ evs -> inOrder target (exec s evs).
Proof.
  revert s. induction evs as [| e evs IH]; intros s Hinv Hno; [ exact Hinv | ].
  cbn [exec fold_left]. apply IH.
  - apply step_inOrder; [ exact Hinv | ].
    intros ->. apply Hno. left.
  - intros Hin. apply Hno. right. exact Hin.
Qed.

Lemma inOrder_prefix (target : list string) (s : state) :
  inOrder target s -> loadedRef s `prefix_of` target.
Proof.
  intros [_ Hph]. destruct (at_ s) as [urls | url rest |].
  - destruct Hph as [-> _]. apply prefix_nil.
  - destruct Hph as [_ <-]. apply prefix_app_r. reflexivity.
  - rewrite Hph. reflexivity.
Qed.

Lemma init_inOrder (urls : list string) :
  inOrder (firstOccurrences [] urls) (init urls).
Proof. split; [ reflexivity | ]. split; reflexivity. Qed.

(** C6: with [url1] failing to decode and [url2] succeeding, the run returns
    with both urls answered as loaded (and registered in that order when they
    are two distinct non-empty urls).  For every list of urls, a run that is
    not torn down ends with the registry holding exactly the first
    occurrences of the non-empty urls in input order, whatever the latency
    and the result of each decode; at every moment of such a run the
    registry is a prefix of that list, one url being in flight at a time. *)
Theorem preload_registers_in_input_order :
  (forall (url1 url2 : string) (delay : nat) (d1 d2 : decode),
      result d1 = Rejected -> result d2 = Resolved ->
      at_ (exec (init [url1; url2]) (schedule delay [d1; d2])) = Returned
      /\ isLoaded (loadedRef (exec (init [url1; url2]) (schedule delay [d1; d2])))
                  (Some url1) = true
      /\ isLoaded (loadedRef (exec (init [url1; url2]) (schedule delay [d1; d2])))
                  (Some url2) = true
      /\ (url1 ≠ "" -> url2 ≠ "" -> url1 ≠ url2 ->
          loadedRef (exec (init [url1; url2]) (schedule delay [d1; d2]))
          = [url1; url2]))
  /\ (forall (urls : list string) (delay : nat) (ds : list decode),
        (length urls <= length ds)%nat ->
        exec (init urls) (schedule delay ds)
        = State Returned (firstOccurrences [] urls)
                (length (firstOccurrences [] urls)) false)
  /\ (forall (urls : list string) (evs : list event),
        Cleanup ∉ evs ->
        loadedRef (exec (init urls) evs) `prefix_of` firstOccurrences [] urls)
  /\ (forall (urls : list string),
        NoDup (firstOccurrences [] urls)
        /\ sublist (firstOccurrences [] urls) urls
        /\ forall u : string,
             u ∈ firstOccurrences [] urls <-> u ∈ urls /\ u ≠ "").
Proof.
  split.
  { intros url1 url2 delay d1 d2 _ _.
    rewrite exec_schedule by reflexivity. cbn [at_ loadedRef].
    assert (Hall : forall u : string,
               u ∈ [url1; url2] ->
               isLoaded (firstOccurrences [] [url1; url2]) (Some u) = true).
    { intros u Hu. unfold isLoaded. destruct (falsy u) eqn:Hf; [ reflexivity | ].
      apply has_true, elem_of_firstOccurrences.
      apply falsy_false in Hf.
      split; [ exact Hu | split; [ exact Hf | apply not_elem_of_nil ] ]. }
    split; [ reflexivity | ].
    split; [ apply Hall; left | ].
    split; [ apply Hall; right; left | ].
    intros Hne1 Hne2 Hneq. cbn [firstOccurrences].
    apply falsy_false in Hne1, Hne2.
    assert (Hh1 : has [] url1 = false) by (apply has_false, not_elem_of_nil).
    assert (Hh2 : has ([] ++ [url1]) url2 = false).
    { apply has_false. cbn [app]. rewrite list_elem_of_singleton. congruence. }
    rewrite Hne1, Hh1. cbn [orb]. rewrite Hne2, Hh2. reflexivity. }
  split; [ apply exec_schedule | ].
  split.
  { intros urls evs Hno. apply inOrder_prefix, exec_inOrder;
      [ apply init_inOrder | exact Hno ]. }
  intros urls.
  split; [ apply NoDup_firstOccurrences | ].
  split; [ apply sublist_firstOccurrences | ].
  intros u. rewrite elem_of_firstOccurrences.
  pose proof (not_elem_of_nil u). tauto.
Qed.

(** The first decode is rejected after three turns, the second resolves at
    once. *)
Lemma preload_registers_witness :
  loadedRef (exec (init ["/pics/missing.png"; "/pics/work.JPG"])
                  (schedule 2 [Decode 3 Rejected; Decode 0 Resolved]))
  = ["/pics/missing.png"; "/pics/work.JPG"].
Proof.
  pose proof preload_registers_in_input_order as (Hpair & _).
  destruct (Hpair "/pics/missing.png" "/pics/work.JPG" 2%nat
                  (Decode 3 Rejected) (Decode 0 Resolved) eq_refl eq_refl)
    as (_ & _ & _ & Horder).
  apply Horder; discriminate.
Defined.

Lemma step_cancelled (s : state) (e : event) :
  cancelled s = true ->
  loadedRef (step s e) = loadedRef s
  /\ rerenders (step s e) = rerenders s
  /\ cancelled (step s e) = true
  /\ (at_ (step s e) = at_ s \/ at_ (step s e) = Returned).
Proof.
  intros Hc. destruct e as [| o | |]; cbn [step].
  - destruct (at_ s) as [urls | url rest |] eqn:Hat;
      cbn [loadedRef rerenders cancelled at_]; rewrite ?Hat; auto.
    rewrite Hc. repeat split. right. destruct urls; reflexivity.
  - destruct (at_ s) as [urls | url rest |] eqn:Hat; rewrite ?Hat; auto.
    destruct o; unfold afterAwait; rewrite Hc;
      cbn [loadedRef rerenders cancelled at_]; auto.
  - auto.
  - cbn [loadedRef rerenders cancelled at_]. auto.
Qed.

(** C8: once [cancelled] is set, no event changes the registry or the
    re-render counter, and the flag stays set; the loop starts no further
    decode (it stays where it is or returns), and a decode in flight that
    settles afterwards, resolved or rejected, makes the loop return with its
    url discarded. *)
Theorem cancelled_preloader_is_inert (s : state) (evs : list event) :
  cancelled s = true ->
  loadedRef (exec s evs) = loadedRef s
  /\ rerenders (exec s evs) = rerenders s
  /\ cancelled (exec s evs) = true
  /\ (at_ (exec s evs) = at_ s \/ at_ (exec s evs) = Returned)
  /\ (forall (url : string) (rest : list string) (o : outcome),
        at_ s = Awaiting url rest ->
        step s (Settle o) = State Returned (loadedRef s) (rerenders s) true).
Proof.
  intros Hc. split; [ | split; [ | split; [ | split ] ] ].
  5: { intros url rest o Hat. cbn [step]. rewrite Hat.
       destruct o; unfold afterAwait; rewrite Hc; reflexivity. }
  all: revert s Hc; induction evs as [| e evs IH]; intros s Hc;
    [ first [ reflexivity | exact Hc | left; reflexivity ] | ];
    cbn [exec fold_left];
    destruct (step_cancelled s e Hc) as (Hl & Hr & Hc' & Hat);
    specialize (IH (step s e) Hc'); unfold exec in IH.
  - rewrite IH. exact Hl.
  - rewrite IH. exact Hr.
  - exact IH.
  - destruct IH as [IH | IH]; [ | right; exact IH ].
    rewrite IH. exact Hat.
Qed.

(** The effect is cleaned up while the first decode is in flight; the decode
    then resolves, and stray events follow. *)
Lemma cancelled_preloader_witness :
  loadedRef (exec (exec (init ["/pics/Vision_bg.png"; "/pics/work.JPG"]) [Run; Cleanup])
                  [Settle Resolved; Turn; Run; Settle Rejected]) = []
  /\ rerenders (exec (exec (init ["/pics/Vision_bg.png"; "/pics/work.JPG"]) [Run; Cleanup])
                     [Settle Resolved; Turn; Run; Settle Rejected]) = 0%nat.
Proof.
  pose proof (cancelled_preloader_is_inert
                (exec (init ["/pics/Vision_bg.png"; "/pics/work.JPG"]) [Run; Cleanup])
                [Settle Resolved; Turn; Run; Settle Rejected] eq_refl)
    as (Hl & Hr & _).
  split; [ exact Hl | exact Hr ].
Defined.

End PreloadFacts.

(** ** Background crossfade *)

Section CrossfadeFacts.
Import Crossfade.

Lemma imageOf_none : imageOf "none" = None.
Proof. reflexivity. Qed.

Lemma imageOf_nonempty (k u : string) :
  imageOf k = Some u -> Preload.falsy u = false.
Proof.
  unfold imageOf, cfgFor. repeat case_bool_decide; cbn [image];
    intros [= <-]; reflexivity.
Qed.

Lemma effect_frame (k : string) (s : state) :
  active (effect k s) = active s
  /\ lastDeps (effect k s) = lastDeps s
  /\ preloader (effect k s) = preloader s.
Proof.
  unfold effect. case_bool_decide; [ auto | ].
  destruct (absent (imageOf k) || _); auto.
Qed.

Lemma effect_displayKey (k : string) (s : state) :
  (displayKey (effect k s) = k
   /\ (k = "none" \/ imageOf k = None
       \/ exists u, imageOf k = Some u /\ u ∈ registry s))
  \/ (displayKey (effect k s) = displayKey s
      /\ exists u, imageOf k = Some u /\ u ∉ registry s).
Proof.
  unfold effect. case_bool_decide as Hnone; [ left; auto | ].
  destruct (imageOf k) as [u |] eqn:Himg; [ | left; auto ].
  cbn [absent Preload.isLoaded]. rewrite (imageOf_nonempty _ _ Himg).
  cbn [orb]. destruct (Preload.has _ u) eqn:Hhas.
  - apply has_true in Hhas. left. split; [ reflexivity | ]. eauto.
  - apply has_false in Hhas. right. split; [ reflexivity | ]. eauto.
Qed.

Lemma render_frame (a : string) (s : state) :
  active (render a s) = a
  /\ lastDeps (render a s) = Some (keyOf a, 0%nat)
  /\ preloader (render a s) = preloader s.
Proof.
  unfold render, isLoadedIdentity. case_bool_decide as Hdeps; [ auto | ].
  destruct (effect_frame (keyOf a)
              (State a (Some (keyOf a, 0%nat)) (displayKey s) (preloader s)))
    as (Ha & Hd & Hp).
  rewrite Ha, Hd, Hp. auto.
Qed.

Lemma render_same_deps (a : string) (s : state) :
  lastDeps s = Some (keyOf a, 0%nat) -> displayKey (render a s) = displayKey s.
Proof.
  intros Hdeps. unfold render, isLoadedIdentity.
  rewrite bool_decide_eq_true_2 by exact Hdeps. reflexivity.
Qed.

Lemma render_displayKey (a : string) (s : state) :
  (displayKey (render a s) = keyOf a
   /\ (keyOf a = "none" \/ imageOf (keyOf a) = None
       \/ exists u, imageOf (keyOf a) = Some u /\ u ∈ registry s))
  \/ displayKey (render a s) = displayKey s.
Proof.
  unfold render, isLoadedIdentity. case_bool_decide as Hdeps; [ right; reflexivity | ].
  destruct (effect_displayKey (keyOf a)
              (State a (Some (keyOf a, 0%nat)) (displayKey s) (preloader s)))
    as [[Hk Hwhy] | [Hk _]]; [ left | right ]; auto.
Qed.

Lemma registry_grows (p : Preload.state) (e : Preload.event) (u : string) :
  u ∈ Preload.loadedRef p -> u ∈ Preload.loadedRef (Preload.step p e).
Proof.
  intros Hu. destruct e as [| o | |]; cbn [Preload.step].
  - destruct (Preload.at_ p); exact Hu.
  - destruct (Preload.at_ p) as [urls | url rest |]; try exact Hu.
    destruct o; unfold Preload.afterAwait; destruct (Preload.cancelled p);
      cbn [Preload.loadedRef]; try exact Hu; apply elem_of_add; auto.
  - exact Hu.
  - exact Hu.
Qed.

Lemma step_Preloader_displayKey (mounted : string) (s : state)
    (pe : Preload.event) :
  settled mounted s -> displayKey (step s (Preloader pe)) = displayKey s.
Proof.
  intros [Hdeps _]. cbn [step]. case_bool_decide; [ reflexivity | ].
  exact (render_same_deps (active s)
           (State (active s) (lastDeps s) (displayKey s)
                  (Preload.step (preloader s) pe)) Hdeps).
Qed.

Lemma step_settled (mounted : string) (s : state) (e : event) :
  settled mounted s -> settled mounted (step s e).
Proof.
  intros Hs. pose proof Hs as [Hdeps Hshown]. destruct e as [a | pe].
  - cbn [step]. destruct (render_frame a s) as (Ha & Hd & Hp).
    split; [ rewrite Ha; exact Hd | ].
    unfold renderedImage, registry. rewrite Hp.
    destruct (render_displayKey a s) as [[Hk Hwhy] | Hk]; rewrite Hk;
      [ | exact Hshown ].
    right. intros u Hu.
    destruct Hwhy as [Hnone | [Hno | (u' & Hu' & Hin)]].
    + rewrite Hnone, imageOf_none in Hu. discriminate Hu.
    + rewrite Hno in Hu. discriminate Hu.
    + rewrite Hu' in Hu. injection Hu as <-. exact Hin.
  - assert (Hframe : active (step s (Preloader pe)) = active s
                     /\ lastDeps (step s (Preloader pe)) = lastDeps s
                     /\ preloader (step s (Preloader pe))
                        = Preload.step (preloader s) pe).
    { cbn [step]. case_bool_decide; [ auto | ].
      destruct (render_frame (active s)
                  (State (active s) (lastDeps s) (displayKey s)
                         (Preload.step (preloader s) pe))) as (Ha & Hd & Hp).
      rewrite Ha, Hd, Hp. cbn [preloader]. auto. }
    destruct Hframe as (Ha & Hd & Hp).
    split; [ rewrite Ha, Hd; exact Hdeps | ].
    unfold renderedImage, registry.
    rewrite (step_Preloader_displayKey mounted s pe Hs), Hp.
    destruct Hshown as [Hm | Hl]; [ left; exact Hm | right ].
    intros u Hu. apply registry_grows, Hl, Hu.
Qed.

Lemma mount_settled (a : string) : settled a (mount a).
Proof.
  unfold mount.
  destruct (render_frame a (State a None (keyOf a) (Preload.init preloadUrls)))
    as (Ha & Hd & _).
  split; [ rewrite Ha; exact Hd | ]. left.
  destruct (render_displayKey a (State a None (keyOf a) (Preload.init preloadUrls)))
    as [[Hk _] | Hk]; exact Hk.
Qed.

Lemma exec_settled (mounted : string) (evs : list event) (s : state) :
  settled mounted s -> settled mounted (exec s evs).
Proof.
  revert s. induction evs as [| e evs IH]; intros s Hs; [ exact Hs | ].
  cbn [exec fold_left]. apply IH, step_settled, Hs.
Qed.

(** The half of C2 that the effect delivers: when the prop changes to a
    section whose key is ["none"], whose configuration has no image, or
    whose image is registered, the displayed key becomes the new key in that
    same step. *)
Lemma render_switches_when_ready (a a' : string) (evs : list event) :
  keyOf a' ≠ keyOf (active (exec (mount a) evs)) ->
  (keyOf a' = "none" \/ imageOf (keyOf a') = None
   \/ exists u, imageOf (keyOf a') = Some u
                /\ u ∈ registry (exec (mount a) evs)) ->
  displayKey (step (exec (mount a) evs) (Active a')) = keyOf a'.
Proof.
  intros Hnew Hready.
  destruct (exec_settled a evs _ (mount_settled a)) as [Hdeps _].
  set (s := exec (mount a) evs) in *.
  cbn [step]. unfold render, isLoadedIdentity.
  rewrite bool_decide_eq_false_2 by (rewrite Hdeps; congruence).
  destruct (effect_displayKey (keyOf a')
              (State a' (Some (keyOf a', 0%nat)) (displayKey s) (preloader s)))
    as [[Hk _] | [_ (u & Hu & Hnot)]]; [ exact Hk | exfalso ].
  destruct Hready as [Hnone | [Hno | (u' & Hu' & Hin)]].
  - rewrite Hnone, imageOf_none in Hu. discriminate Hu.
  - rewrite Hno in Hu. discriminate Hu.
  - rewrite Hu' in Hu. injection Hu as <-. exact (Hnot Hin).
Qed.

(** C1, as the code has it: in every state reached from the mount, an image
    that is drawn is registered as loaded unless the displayed key is still
    the one the component was mounted with ([useState(key)] displays it
    without asking the registry); and whenever, after an event, the image of
    the active section is not registered, that event has left the displayed
    key as it was. *)
Theorem displayed_image_registered_unless_mounted (a : string)
    (evs : list event) :
  (forall u : string,
      renderedImage (exec (mount a) evs) = Some u ->
      displayKey (exec (mount a) evs) = keyOf a
      \/ u ∈ registry (exec (mount a) evs))
  /\ (forall (e : event) (u : string),
        imageOf (keyOf (active (step (exec (mount a) evs) e))) = Some u ->
        u ∉ registry (step (exec (mount a) evs) e) ->
        displayKey (step (exec (mount a) evs) e)
        = displayKey (exec (mount a) evs)).
Proof.
  pose proof (exec_settled a evs _ (mount_settled a)) as Hs.
  set (s := exec (mount a) evs) in *.
  split.
  { intros u Hu. destruct Hs as [_ [Hm | Hl]]; [ left; exact Hm | right; auto ]. }
  intros e u Himg Hnot. destruct e as [a' | pe].
  - cbn [step] in *. destruct (render_frame a' s) as (Ha & _ & Hp).
    rewrite Ha in Himg. unfold registry in Hnot. rewrite Hp in Hnot.
    destruct (render_displayKey a' s) as [[_ Hwhy] | Hk]; [ exfalso | exact Hk ].
    destruct Hwhy as [Hnone | [Hno | (u' & Hu' & Hin)]].
    + rewrite Hnone, imageOf_none in Himg. discriminate Himg.
    + rewrite Hno in Himg. discriminate Himg.
    + rewrite Hu' in Himg. injection Himg as <-. exact (Hnot Hin).
  - exact (step_Preloader_displayKey a s pe Hs).
Qed.

(** Mounted on ["hero"], the page scrolls to ["pattern"] before anything is
    loaded: the hero configuration stays. *)
Lemma displayed_image_witness :
  displayKey (step (exec (mount "hero") []) (Active "pattern")) = "hero".
Proof.
  pose proof (displayed_image_registered_unless_mounted "hero" []) as (_ & Hkeep).
  apply (Hkeep (Active "pattern") "/pics/pattern.JPG").
  - reflexivity.
  - vm_compute. apply not_elem_of_nil.
Defined.

(** C1 as stated fails in the initial state: mounted on ["hero"], the
    component draws the hero image while the registry is empty. *)
Lemma mount_draws_unregistered_image :
  renderedImage (mount "hero") = Some "/pics/Vision_bg.png"
  /\ ("/pics/Vision_bg.png" ∉ registry (mount "hero"))
  /\ Preload.isLoaded (registry (mount "hero")) (Some "/pics/Vision_bg.png")
     = false.
Proof.
  split; [ reflexivity | ].
  split; [ apply not_elem_of_nil | reflexivity ].
Qed.

(** C2, evaluated on the code: no event of the preloader changes the
    displayed key, in any reachable state.  Mounted on ["hero"], once the
    prop is ["pattern"] and the preloader has registered the pattern image,
    the displayed key is still ["hero"]; it follows the active key only at
    the next change of the prop. *)
Theorem displayed_key_ignores_preloader :
  (forall (a : string) (evs : list event) (pe : Preload.event),
      displayKey (step (exec (mount a) evs) (Preloader pe))
      = displayKey (exec (mount a) evs))
  /\ active (exec (mount "hero")
              [ Active "pattern"; Preloader Preload.Run;
                Preloader (Preload.Settle Preload.Resolved);
                Preloader (Preload.Settle Preload.Resolved);
                Preloader (Preload.Settle Preload.Resolved) ]) = "pattern"
  /\ Preload.isLoaded
       (registry (exec (mount "hero")
              [ Active "pattern"; Preloader Preload.Run;
                Preloader (Preload.Settle Preload.Resolved);
                Preloader (Preload.Settle Preload.Resolved);
                Preloader (Preload.Settle Preload.Resolved) ]))
       (imageOf "pattern") = true
  /\ displayKey (exec (mount "hero")
              [ Active "pattern"; Preloader Preload.Run;
                Preloader (Preload.Settle Preload.Resolved);
                Preloader (Preload.Settle Preload.Resolved);
                Preloader (Preload.Settle Preload.Resolved) ]) = "hero"
  /\ displayKey (exec (mount "hero")
              [ Active "pattern"; Preloader Preload.Run;
                Preloader (Preload.Settle Preload.Resolved);
                Preloader (Preload.Settle Preload.Resolved);
                Preloader (Preload.Settle Preload.Resolved);
                Active "mechanism"; Active "pattern" ]) = "pattern".
Proof.
  split.
  { intros a evs pe.
    exact (step_Preloader_displayKey a _ pe (exec_settled a evs _ (mount_settled a))). }
  repeat split.
Qed.

End CrossfadeFacts.

(** ** Active section: facts that hold in any arithmetic *)

Section ActiveSectionFacts.
Import ActiveSection.

Context {num : Type}.
Variables (zero minusOne epsilon : num).
Variable plus : num -> num -> num.
Variable gt : num -> num -> bool.

Lemma firstOrEmpty_cons (id : string) (rest : list string) :
  firstOrEmpty (id :: rest) = id.
Proof.
  cbn [firstOrEmpty]. unfold orElse.
  destruct (Preload.falsy id) eqn:E; [ | reflexivity ].
  apply falsy_true in E. symmetry. exact E.
Qed.

Lemma fold_visit_id (ratios : gmap string num) (ids : list string)
    (start : string * num) :
  fst (fold_left (visit zero epsilon plus gt ratios) ids start) = fst start
  \/ fst (fold_left (visit zero epsilon plus gt ratios) ids start) ∈ ids.
Proof.
  revert start. induction ids as [| id ids IH]; intros start; [ left; reflexivity | ].
  cbn [fold_left].
  destruct (IH (visit zero epsilon plus gt ratios start id)) as [Heq | Hin].
  - rewrite Heq. unfold visit.
    destruct (gt _ _); [ right; left | left; reflexivity ].
  - right. right. exact Hin.
Qed.

Lemma commitBest_elem (sectionIds : list string) (ratios : gmap string num)
    (prev : string) :
  prev ∈ sectionIds ->
  commitBest zero minusOne epsilon plus gt sectionIds ratios prev ∈ sectionIds.
Proof.
  intros Hprev. unfold commitBest.
  destruct (Preload.falsy _) eqn:Hfalsy; [ exact Hprev | ].
  case_bool_decide; [ exact Hprev | ].
  destruct (fold_visit_id ratios sectionIds
              (orElse prev (firstOrEmpty sectionIds), minusOne)) as [Heq | Hin];
    [ | exact Hin ].
  rewrite Heq in *. cbn [fst] in *. unfold orElse in *.
  destruct (Preload.falsy prev); [ | exact Hprev ].
  destruct sectionIds as [| id rest]; [ discriminate Hfalsy | ].
  rewrite firstOrEmpty_cons. left.
Qed.

Lemma step_active_elem (sectionIds : list string) (s : state) (e : event) :
  active s ∈ sectionIds ->
  active (step zero minusOne epsilon plus gt sectionIds s e) ∈ sectionIds.
Proof.
  intros Hs. unfold step. destruct (observing s); [ | exact Hs ].
  destruct e as [es |]; [ exact Hs | ].
  destruct (raf s); [ | exact Hs ].
  cbn [active]. apply commitBest_elem, Hs.
Qed.

Lemma step_not_observing (sectionIds : list string) (s : state) (e : event) :
  observing s = false -> step zero minusOne epsilon plus gt sectionIds s e = s.
Proof. intros H. unfold step. rewrite H. reflexivity. Qed.

(** C10: for a non-empty list of section ids the active id starts as the
    first id and, after any sequence of observer batches and animation
    frames, is an element of the list; for the empty list it is the empty
    string and no event changes it. *)
Theorem active_section_is_a_supplied_id (sectionIds : list string)
    (inDocument : string -> bool) (evs : list event) :
  (sectionIds ≠ [] ->
   head sectionIds = Some (active (mount (num := num) sectionIds inDocument))
   /\ active (exec zero minusOne epsilon plus gt sectionIds
                   (mount sectionIds inDocument) evs) ∈ sectionIds)
  /\ (sectionIds = [] ->
      active (exec zero minusOne epsilon plus gt sectionIds
                   (mount sectionIds inDocument) evs) = "").
Proof.
  split.
  - intros Hne. destruct sectionIds as [| id rest]; [ contradiction | ].
    split; [ cbn [mount active head]; rewrite firstOrEmpty_cons; reflexivity | ].
    assert (Hinit : active (mount (num := num) (id :: rest) inDocument) ∈ id :: rest).
    { cbn [mount active]. rewrite firstOrEmpty_cons. left. }
    generalize dependent (mount (num := num) (id :: rest) inDocument).
    induction evs as [| e evs' IH]; intros s Hs; [ exact Hs | ].
    cbn [exec fold_left]. apply IH, step_active_elem, Hs.
  - intros ->.
    assert (Hoff : observing (mount (num := num) [] inDocument) = false) by reflexivity.
    assert (Hinit : active (mount (num := num) [] inDocument) = "") by reflexivity.
    generalize dependent (mount (num := num) [] inDocument).
    induction evs as [| e evs' IH]; intros s Hoff Hs; [ exact Hs | ].
    cbn [exec fold_left]. rewrite step_not_observing by exact Hoff.
    apply IH; assumption.
Qed.

End ActiveSectionFacts.

Section ObserverFacts.
Import ActiveSection.

Context {num : Type}.
Variable zero : num.

Lemma record_commute (m : gmap string num) (e1 e2 : entry) :
  target e1 ≠ target e2 ->
  record zero (record zero m e1) e2 = record zero (record zero m e2) e1.
Proof. intros Hne. unfold record. apply insert_insert_ne. congruence. Qed.

(** The map the observer callback leaves does not depend on the order in
    which a batch lists the entries of distinct sections. *)
Lemma record_batch_permutation (es1 es2 : list entry) :
  es1 ≡ₚ es2 -> NoDup (target <$> es1) ->
  forall m : gmap string num,
    fold_left (record zero) es1 m = fold_left (record zero) es2 m.
Proof.
  induction 1 as [| e l1 l2 Hperm IH | e1 e2 l | l1 l2 l3 H12 IH12 H23 IH23];
    intros Hnodup m.
  - reflexivity.
  - cbn [fold_left]. apply IH. apply NoDup_cons in Hnodup. tauto.
  - cbn [fold_left]. rewrite record_commute; [ reflexivity | ].
    cbn [fmap list_fmap] in Hnodup. apply NoDup_cons in Hnodup as [Hnot _].
    intros Heq. apply Hnot. rewrite Heq. left.
  - rewrite IH12 by exact Hnodup. apply IH23.
    rewrite <- H12. exact Hnodup.
Qed.

End ObserverFacts.

(** The page's six sections, all of them in the document, under a batch and
    a frame: the active id stays one of the six. *)
Lemma active_section_witness :
  ActiveSection.active
    (ActiveSection.execF ActiveSection.pageSections
       (ActiveSection.mountF ActiveSection.pageSections (fun _ => true))
       [ ActiveSection.Entries
           [ ActiveSection.Entry "pattern" true 0.7%float;
             ActiveSection.Entry "hero" false 0.1%float ];
         ActiveSection.Frame ])
  ∈ ActiveSection.pageSections.
Proof.
  apply (active_section_is_a_supplied_id 0%float (-1)%float 1e-6%float
           PrimFloat.add ActiveSection.gtF ActiveSection.pageSections
           (fun _ => true)).
  discriminate.
Defined.

(** ** The order of binary64 *)

Section FloatOrder.

Ltac sf_cases :=
  repeat match goal with
  | |- context [Pos.compare_cont Eq ?a ?b] =>
      change (Pos.compare_cont Eq a b) with (Pos.compare a b) in *
  | H : context [Pos.compare_cont Eq ?a ?b] |- _ =>
      change (Pos.compare_cont Eq a b) with (Pos.compare a b) in *
  | |- context [Z.compare ?a ?b] => destruct (Z.compare_spec a b)
  | |- context [Pos.compare ?a ?b] => destruct (Pos.compare_spec a b)
  | H : context [Z.compare ?a ?b] |- _ => destruct (Z.compare_spec a b)
  | H : context [Pos.compare ?a ?b] |- _ => destruct (Pos.compare_spec a b)
  end.

Lemma SFltb_trans (a b c : spec_float) :
  SFltb a b = true -> SFltb b c = true -> SFltb a c = true.
Proof.
  unfold SFltb, SFcompare.
  destruct a as [[]|[]| |[] ma ea], b as [[]|[]| |[] mb eb],
           c as [[]|[]| |[] mc ec];
    try reflexivity; try discriminate; cbn;
    intros Hab Hbc; sf_cases; subst; cbn in *;
    try reflexivity; try discriminate; try lia.
Qed.

Lemma SFltb_negtrans (a b c : spec_float) :
  b <> S754_nan ->
  SFltb a b = false -> SFltb b c = false -> SFltb a c = false.
Proof.
  unfold SFltb, SFcompare.
  destruct a as [[]|[]| |[] ma ea], b as [[]|[]| |[] mb eb],
           c as [[]|[]| |[] mc ec];
    try reflexivity; try discriminate; try congruence; cbn;
    intros Hb Hab Hbc; sf_cases; subst; cbn in *;
    try reflexivity; try discriminate; try lia.
Qed.

Lemma not_nan_spec (x : float) :
  PrimFloat.is_nan x = false -> Prim2SF x <> S754_nan.
Proof.
  unfold PrimFloat.is_nan. rewrite FloatAxioms.eqb_spec. intros H Hn.
  rewrite Hn in H. discriminate H.
Qed.

(** [<] on binary64 is transitive, and so is its negation around a number. *)
Lemma ltb_trans (a b c : float) :
  PrimFloat.ltb a b = true -> PrimFloat.ltb b c = true ->
  PrimFloat.ltb a c = true.
Proof. rewrite !ltb_spec. apply SFltb_trans. Qed.

Lemma ltb_negtrans (a b c : float) :
  PrimFloat.is_nan b = false ->
  PrimFloat.ltb a b = false -> PrimFloat.ltb b c = false ->
  PrimFloat.ltb a c = false.
Proof. rewrite !ltb_spec. intros H. apply SFltb_negtrans, not_nan_spec, H. Qed.

End FloatOrder.

(** ** Active section: the loop of the recomputation *)

Section DetectorLoop.
Import ActiveSection.

Context {num : Type}.
Variables (zero minusOne epsilon : num).
Variable plus : num -> num -> num.
Variable gt : num -> num -> bool.
Variable ratios : gmap string num.

Abbreviation score := (scoreOf zero ratios).
Abbreviation visitR := (visit zero epsilon plus gt ratios).

Lemma visit_displaces (best : string * num) (id : string) :
  gt (score id) (plus (snd best) epsilon) = true -> visitR best id = (id, score id).
Proof. intros H. unfold visit. rewrite H. reflexivity. Qed.

Lemma visit_keeps (best : string * num) (id : string) :
  gt (score id) (plus (snd best) epsilon) = false -> visitR best id = best.
Proof. intros H. unfold visit. rewrite H. reflexivity. Qed.

Lemma fold_keeps (ids : list string) (best : string * num) :
  (forall id, id ∈ ids -> gt (score id) (plus (snd best) epsilon) = false) ->
  fold_left visitR ids best = best.
Proof.
  induction ids as [| id ids IH]; intros Hall; [ reflexivity | ].
  cbn [fold_left]. rewrite visit_keeps by (apply Hall; left).
  apply IH. intros id' Hin. apply Hall. right. exact Hin.
Qed.

(** The running best is the initial candidate or a visited id with its own
    score. *)
Lemma fold_running_best (ids : list string) (start : string * num) :
  fold_left visitR ids start = start
  \/ exists id, id ∈ ids /\ fold_left visitR ids start = (id, score id).
Proof.
  induction ids as [| id ids IH] using rev_ind; [ left; reflexivity | ].
  rewrite fold_left_app. cbn [fold_left]. unfold visit at 1 3.
  destruct (gt (score id) (plus (snd (fold_left visitR ids start)) epsilon)).
  - right. exists id. split; [ | reflexivity ].
    apply elem_of_app. right. left.
  - destruct IH as [-> | (id' & Hin & ->)]; [ left; reflexivity | right ].
    exists id'. split; [ | reflexivity ]. apply elem_of_app. left. exact Hin.
Qed.

(** When the first declared section passes the test against -1, the first
    visit displaces the initial candidate, so the previous active id has no
    part in what the loop finds. *)
Lemma fold_first_visit (id : string) (rest : list string) (start : string) :
  gt (score id) (plus minusOne epsilon) = true ->
  fold_left visitR (id :: rest) (start, minusOne)
  = fold_left visitR rest (id, score id).
Proof. intros H. cbn [fold_left]. rewrite visit_displaces; [ reflexivity | exact H ]. Qed.

Lemma prev_or_best (prev best : string) :
  (if bool_decide (prev = best) then prev else best) = best.
Proof. case_bool_decide; [ assumption | reflexivity ]. Qed.

Lemma commitBest_found (ids : list string) (prev : string) :
  ids <> [] -> "" ∉ ids ->
  (forall id, id ∈ ids -> gt (score id) (plus minusOne epsilon) = true) ->
  commitBest zero minusOne epsilon plus gt ids ratios prev ∈ ids
  /\ forall start,
       commitBest zero minusOne epsilon plus gt ids ratios prev
       = fst (fold_left visitR ids (start, minusOne)).
Proof.
  intros Hne Hids Hfirst. destruct ids as [| id rest]; [ contradiction | ].
  unfold commitBest. rewrite prev_or_best.
  rewrite fold_first_visit by (apply Hfirst; left).
  assert (Hin : fst (fold_left visitR rest (id, score id)) ∈ id :: rest).
  { destruct (fold_visit_id zero epsilon plus gt ratios rest (id, score id))
      as [-> | Hin]; [ left | right; exact Hin ]. }
  assert (Hfalsy : Preload.falsy (fst (fold_left visitR rest (id, score id))) = false).
  { apply falsy_false. intros Heq. apply Hids. rewrite <- Heq. exact Hin. }
  rewrite Hfalsy. split; [ exact Hin | ].
  intros start. rewrite fold_first_visit by (apply Hfirst; left). reflexivity.
Qed.

(** A section that passes the test against -1 and against every
    earlier-declared section, and against which no later-declared section
    passes the test, is the result. *)
Lemma commitBest_retains (pre post : list string) (p prev : string) :
  p <> "" ->
  gt (score p) (plus minusOne epsilon) = true ->
  (forall id, id ∈ pre -> gt (score p) (plus (score id) epsilon) = true) ->
  (forall id, id ∈ post -> gt (score id) (plus (score p) epsilon) = false) ->
  commitBest zero minusOne epsilon plus gt (pre ++ p :: post) ratios prev = p.
Proof.
  intros Hp Hfirst Hpre Hpost. unfold commitBest. rewrite prev_or_best.
  set (start := (orElse prev (firstOrEmpty (pre ++ p :: post)), minusOne)).
  rewrite fold_left_app. cbn [fold_left].
  assert (Hvisit : visitR (fold_left visitR pre start) p = (p, score p)).
  { apply visit_displaces.
    destruct (fold_running_best pre start) as [-> | (id & Hin & ->)]; cbn [snd].
    - exact Hfirst.
    - apply Hpre, Hin. }
  rewrite Hvisit, fold_keeps by exact Hpost. cbn [fst].
  apply falsy_false in Hp. rewrite Hp. reflexivity.
Qed.

End DetectorLoop.

(** ** Active section: the recomputation in an ordered arithmetic *)

Section OrderedDetector.
Import ActiveSection.

Context {num : Type}.
Variables (zero minusOne epsilon : num).
Variable plus : num -> num -> num.
Variable gt : num -> num -> bool.

(** The values that are numbers. *)
Variable ok : num -> Prop.

Hypothesis gt_trans :
  forall a b c, gt a b = true -> gt b c = true -> gt a c = true.
Hypothesis gt_negtrans :
  forall a b c, ok b -> gt a b = false -> gt b c = false -> gt a c = false.

Variable ratios : gmap string num.

Abbreviation scoreO := (scoreOf zero ratios).
Abbreviation visitO := (visit zero epsilon plus gt ratios).

(** What the loop has established after any prefix of the ids. *)
Lemma fold_visit_invariant (ids : list string) (start : string * num) :
  (forall id, id ∈ ids -> ok (scoreO id)) ->
  (forall id, id ∈ ids -> gt (scoreO id) (plus (scoreO id) epsilon) = false) ->
  (forall id, id ∈ ids ->
     gt (scoreO id) (plus (snd (fold_left visitO ids start)) epsilon) = false)
  /\ (fold_left visitO ids start = start
      \/ exists pre post,
           ids = pre ++ fst (fold_left visitO ids start) :: post
           /\ snd (fold_left visitO ids start)
              = scoreO (fst (fold_left visitO ids start))
           /\ forall id, id ∈ pre ->
                gt (snd (fold_left visitO ids start)) (scoreO id) = true).
Proof.
  induction ids as [| id ids IH] using rev_ind; intros Hok Hself.
  - cbn [fold_left]. split; [ | left; reflexivity ].
    intros id Hin. apply elem_of_nil in Hin. contradiction.
  - rewrite fold_left_app. cbn [fold_left].
    destruct IH as (Hall & Hwho).
    { intros id' Hin. apply Hok, elem_of_app. left. exact Hin. }
    { intros id' Hin. apply Hself, elem_of_app. left. exact Hin. }
    set (best := fold_left visitO ids start) in *.
    destruct (gt (scoreO id) (plus (snd best) epsilon)) eqn:Htest.
    + rewrite (visit_displaces zero epsilon plus gt ratios best id Htest).
      cbn [fst snd].
      assert (Hlower : forall id', id' ∈ ids -> gt (scoreO id) (scoreO id') = true).
      { intros id' Hin. destruct (gt (scoreO id) (scoreO id')) eqn:E; [ reflexivity | ].
        assert (Hno : gt (scoreO id) (plus (snd best) epsilon) = false).
        { apply (gt_negtrans _ (scoreO id'));
            [ apply Hok, elem_of_app; left; exact Hin | exact E | apply Hall, Hin ]. }
        congruence. }
      assert (Hid : gt (scoreO id) (plus (scoreO id) epsilon) = false).
      { apply Hself, elem_of_app. right. left. }
      split.
      * intros id' Hin. apply elem_of_app in Hin as [Hin | Hin].
        -- destruct (gt (scoreO id') (plus (scoreO id) epsilon)) eqn:E; [ | reflexivity ].
           pose proof (gt_trans _ _ _ (Hlower id' Hin) E). congruence.
        -- apply list_elem_of_singleton in Hin as ->. exact Hid.
      * right. exists ids, []. split; [ reflexivity | ].
        split; [ reflexivity | exact Hlower ].
    + rewrite (visit_keeps zero epsilon plus gt ratios best id Htest).
      split.
      * intros id' Hin. apply elem_of_app in Hin as [Hin | Hin];
          [ apply Hall, Hin | ].
        apply list_elem_of_singleton in Hin as ->. exact Htest.
      * destruct Hwho as [Hstart | (pre & post & Hids & Hsnd & Hpre)];
          [ left; exact Hstart | right ].
        exists pre, (post ++ [id]). split; [ | split; assumption ].
        rewrite Hids at 1. rewrite <- app_assoc. reflexivity.
Qed.

Lemma commitBest_decomposed (ids : list string) (prev : string) :
  ids <> [] -> "" ∉ ids ->
  (forall id, id ∈ ids -> ok (scoreO id)) ->
  (forall id, id ∈ ids -> gt (scoreO id) (plus (scoreO id) epsilon) = false) ->
  (forall id, id ∈ ids -> gt (scoreO id) (plus minusOne epsilon) = true) ->
  (forall id, id ∈ ids ->
     gt (scoreO id)
        (plus (scoreO (commitBest zero minusOne epsilon plus gt ids ratios prev))
              epsilon) = false)
  /\ exists pre post,
       ids = pre ++ commitBest zero minusOne epsilon plus gt ids ratios prev :: post
       /\ forall id, id ∈ pre ->
            gt (scoreO (commitBest zero minusOne epsilon plus gt ids ratios prev))
               (scoreO id) = true.
Proof.
  intros Hne Hids Hok Hself Hfirst.
  destruct (commitBest_found zero minusOne epsilon plus gt ratios ids prev
              Hne Hids Hfirst) as [_ Hfold].
  rewrite (Hfold "").
  destruct (fold_visit_invariant ids ("", minusOne) Hok Hself) as (Hall & Hwho).
  destruct Hwho as [Hstart | (pre & post & Hdec & Hsnd & Hpre)].
  { exfalso. destruct ids as [| id rest]; [ contradiction | ].
    specialize (Hall id (list_elem_of_here _ _)). rewrite Hstart in Hall.
    cbn [snd] in Hall. rewrite (Hfirst id (list_elem_of_here _ _)) in Hall.
    discriminate Hall. }
  rewrite <- Hsnd. split; [ exact Hall | ].
  exists pre, post. split; assumption.
Qed.

End OrderedDetector.

(** ** Active section: the recomputation of the best candidate *)

Section CommitBestClaims.
Import ActiveSection.
Local Open Scope float_scope.

Ltac each_id H :=
  unfold pageSections in H;
  repeat (apply elem_of_cons in H as [-> | H]);
  [ .. | apply elem_of_nil in H; contradiction ].

Ltac no_empty_id H :=
  unfold pageSections in H;
  repeat (apply elem_of_cons in H as [H | H]; [ discriminate H | ]);
  apply elem_of_nil in H; contradiction.

Lemma ordinaryRatio_spec (ratio : float) :
  ordinaryRatio ratio = true ->
  PrimFloat.is_nan ratio = false
  /\ (ratio <? 0) = false
  /\ (ratio + 1e-6 <? ratio) = false.
Proof.
  unfold ordinaryRatio. rewrite !andb_true_iff, !negb_true_iff. tauto.
Qed.

Lemma ordinaryRatio_above_start (ratio : float) :
  ordinaryRatio ratio = true -> gtF ratio (-1 + 1e-6) = true.
Proof.
  intros H. apply ordinaryRatio_spec in H as (Hnan & Hneg & _).
  unfold gtF. destruct (-1 + 1e-6 <? ratio) eqn:E; [ reflexivity | ].
  pose proof (ltb_negtrans _ _ _ Hnan E Hneg) as Hc.
  vm_compute in Hc. discriminate Hc.
Qed.

Lemma gtF_trans (a b c : float) :
  gtF a b = true -> gtF b c = true -> gtF a c = true.
Proof. unfold gtF. intros Hab Hbc. exact (ltb_trans c b a Hbc Hab). Qed.

Lemma gtF_negtrans (a b c : float) :
  PrimFloat.is_nan b = false ->
  gtF a b = false -> gtF b c = false -> gtF a c = false.
Proof. unfold gtF. intros Hb Hab Hbc. exact (ltb_negtrans c b a Hb Hbc Hab). Qed.

(** C3 as stated fails: with ratios 0.50 for [meaning] and 0.501 for
    [pattern] and [meaning] active, the recomputation answers [pattern]; and
    a section with exactly the ratio of the active one displaces it when it
    is declared earlier. *)
Lemma near_tie_displaces_previous :
  commitBestF pageSections
    (list_to_map [("meaning", 0.5); ("pattern", 0.501)]) "meaning"
  = "pattern"
  /\ commitBestF pageSections
       (list_to_map [("hero", 0.5); ("meaning", 0.5)]) "meaning"
     = "hero".
Proof. split; vm_compute; reflexivity. Qed.

(** C3, as the code has it: the epsilon is 1e-6 and a candidate is compared
    with the best section found so far in declaration order, not with the
    previously active one.  So 0.501 against 0.50 displaces [meaning], while
    0.5000005 against 0.50 does not; in general a section whose ratio passes
    the test [ratio > best + 1e-6], as binary64 evaluates it, against -1 and
    against every earlier-declared section, and against which no
    later-declared section passes the test, is the result whatever section
    was active before. *)
Theorem commitBest_epsilon_against_running_best (ratios : gmap string float)
    (pre post : list string) (p prev : string) :
  commitBestF pageSections
    (list_to_map [("meaning", 0.5); ("pattern", 0.501)]) "meaning"
  = "pattern"
  /\ commitBestF pageSections
       (list_to_map [("meaning", 0.5); ("pattern", 0.5000005)]) "meaning"
     = "meaning"
  /\ (p <> "" ->
      (-1 + 1e-6 <? scoreOf 0 ratios p) = true ->
      (forall id, id ∈ pre ->
         (scoreOf 0 ratios id + 1e-6 <? scoreOf 0 ratios p) = true) ->
      (forall id, id ∈ post ->
         (scoreOf 0 ratios p + 1e-6 <? scoreOf 0 ratios id) = false) ->
      commitBestF (pre ++ p :: post) ratios prev = p).
Proof.
  split; [ vm_compute; reflexivity | ].
  split; [ vm_compute; reflexivity | ].
  apply (commitBest_retains 0 (-1) 1e-6 PrimFloat.add gtF ratios).
Qed.

(** [meaning] at 0.50 leads [hero] by far and [pattern] at 0.5000005 does
    not pass the test against it. *)
Lemma commitBest_epsilon_witness :
  commitBestF (["hero"] ++ "meaning" :: ["pattern"; "mechanism"; "work"; "involved"])
    (list_to_map [("meaning", 0.5); ("pattern", 0.5000005)]) "meaning"
  = "meaning".
Proof.
  refine (proj2 (proj2 (commitBest_epsilon_against_running_best
            (list_to_map [("meaning", 0.5); ("pattern", 0.5000005)])
            ["hero"] ["pattern"; "mechanism"; "work"; "involved"]
            "meaning" "meaning")) _ _ _ _).
  - discriminate.
  - vm_compute. reflexivity.
  - intros id H. each_id H. vm_compute. reflexivity.
  - intros id H. each_id H; vm_compute; reflexivity.
Defined.

(** C4 as stated fails on a near tie: [meaning] has the highest ratio, and
    the recomputation answers [hero], whose ratio is lower. *)
Lemma near_tie_returns_lower_ratio :
  commitBestF pageSections
    (list_to_map [("hero", 0.5); ("meaning", 0.5000005)]) "meaning"
  = "hero"
  /\ (scoreOf 0 (list_to_map [("hero", 0.5); ("meaning", 0.5000005)]) "hero"
      <? scoreOf 0 (list_to_map [("hero", 0.5); ("meaning", 0.5000005)]) "meaning")
     = true.
Proof. split; vm_compute; reflexivity. Qed.

(** C4, as the code has it: for a non-empty list of non-empty ids and
    recorded ratios that are numbers, not negative, and not lowered by
    adding the epsilon, the recomputation returns an id of the list against
    which no section passes the test [ratio > result + 1e-6] as binary64
    evaluates it; every id declared before it has a strictly lower ratio,
    so among ids of equal ratio the earliest declared wins; the result is
    the same for every previously active id, and the map it reads is the
    same for every order in which a batch lists the samples of distinct
    sections.  For 0.1, 0.9 and 0.0 on [hero], [meaning] and [pattern] it
    returns [meaning]. *)
Theorem commitBest_highest_up_to_epsilon (ids : list string)
    (ratios : gmap string float) (prev : string) :
  ids <> [] -> "" ∉ ids ->
  (forall id, id ∈ ids -> ordinaryRatio (scoreOf 0 ratios id) = true) ->
  commitBestF ids ratios prev ∈ ids
  /\ (forall id, id ∈ ids ->
        (scoreOf 0 ratios (commitBestF ids ratios prev) + 1e-6
         <? scoreOf 0 ratios id) = false)
  /\ (exists pre post,
        ids = pre ++ commitBestF ids ratios prev :: post
        /\ forall id, id ∈ pre ->
             (scoreOf 0 ratios id
              <? scoreOf 0 ratios (commitBestF ids ratios prev)) = true)
  /\ (forall prev', commitBestF ids ratios prev' = commitBestF ids ratios prev)
  /\ (forall (es1 es2 : list (entry (num := float))) (m : gmap string float),
        es1 ≡ₚ es2 -> NoDup (target <$> es1) ->
        commitBestF ids (fold_left (record 0) es1 m) prev
        = commitBestF ids (fold_left (record 0) es2 m) prev)
  /\ commitBestF pageSections
       (list_to_map [("hero", 0.1); ("meaning", 0.9); ("pattern", 0)]) prev
     = "meaning".
Proof.
  intros Hne Hids Hord.
  assert (Hfirst : forall id, id ∈ ids ->
            gtF (scoreOf 0 ratios id) (-1 + 1e-6) = true).
  { intros id Hin. apply ordinaryRatio_above_start, Hord, Hin. }
  destruct (commitBest_found 0 (-1) 1e-6 PrimFloat.add gtF ratios ids prev
              Hne Hids Hfirst) as [Hin Hfold].
  destruct (commitBest_decomposed 0 (-1) 1e-6 PrimFloat.add gtF
              (fun x => PrimFloat.is_nan x = false) gtF_trans gtF_negtrans
              ratios ids prev Hne Hids) as (Hall & pre & post & Hdec & Hpre).
  { intros id Hid. apply (ordinaryRatio_spec _ (Hord id Hid)). }
  { intros id Hid. apply (ordinaryRatio_spec _ (Hord id Hid)). }
  { exact Hfirst. }
  split; [ exact Hin | ].
  split; [ exact Hall | ].
  split; [ exists pre, post; split; [ exact Hdec | exact Hpre ] | ].
  split.
  { intros prev'.
    destruct (commitBest_found 0 (-1) 1e-6 PrimFloat.add gtF ratios ids prev'
                Hne Hids Hfirst) as [_ Hfold'].
    unfold commitBestF. rewrite (Hfold ""), (Hfold' ""). reflexivity. }
  split.
  { intros es1 es2 m Hperm Hnodup.
    rewrite (record_batch_permutation 0 es1 es2 Hperm Hnodup m). reflexivity. }
  assert (Hex : commitBestF pageSections
            (list_to_map [("hero", 0.1); ("meaning", 0.9); ("pattern", 0)])
            "" = "meaning") by (vm_compute; reflexivity).
  etransitivity; [ | exact Hex ].
  destruct (commitBest_found 0 (-1) 1e-6 PrimFloat.add gtF
              (list_to_map [("hero", 0.1); ("meaning", 0.9); ("pattern", 0)])
              pageSections prev) as [_ H1];
    [ discriminate | intros H; no_empty_id H
    | intros id H; each_id H; vm_compute; reflexivity | ].
  destruct (commitBest_found 0 (-1) 1e-6 PrimFloat.add gtF
              (list_to_map [("hero", 0.1); ("meaning", 0.9); ("pattern", 0)])
              pageSections "") as [_ H2];
    [ discriminate | intros H; no_empty_id H
    | intros id H; each_id H; vm_compute; reflexivity | ].
  unfold commitBestF. rewrite (H1 ""), (H2 ""). reflexivity.
Qed.

(** The six sections of the page with the ratios of the example. *)
Lemma commitBest_highest_witness :
  commitBestF pageSections
    (list_to_map [("hero", 0.1); ("meaning", 0.9); ("pattern", 0)]) "hero"
  ∈ pageSections
  /\ forall id, id ∈ pageSections ->
       (scoreOf 0 (list_to_map [("hero", 0.1); ("meaning", 0.9); ("pattern", 0)])
          (commitBestF pageSections
             (list_to_map [("hero", 0.1); ("meaning", 0.9); ("pattern", 0)])
             "hero")
        + 1e-6
        <? scoreOf 0 (list_to_map [("hero", 0.1); ("meaning", 0.9); ("pattern", 0)]) id)
       = false.
Proof.
  assert (Hno : "" ∉ pageSections) by (intros H; no_empty_id H).
  assert (Hord : forall id, id ∈ pageSections ->
            ordinaryRatio
              (scoreOf 0 (list_to_map [("hero", 0.1); ("meaning", 0.9);
                                       ("pattern", 0)]) id) = true)
    by (intros id H; each_id H; vm_compute; reflexivity).
  destruct (commitBest_highest_up_to_epsilon pageSections
              (list_to_map [("hero", 0.1); ("meaning", 0.9); ("pattern", 0)])
              "hero" ltac:(discriminate) Hno Hord) as (Hin & Hall & _).
  split; [ exact Hin | exact Hall ].
Defined.

End CommitBestClaims.

(** * Further properties of the page's code *)

(** ** Scroll progress and its caller *)

Section ScrollMore.
Import Scroll.
Local Open Scope Q_scope.

(** X1: on a page that scrolls, an offset at or past the scroll range gives
    progress 1, and an offset at or before 0 gives progress 0 on any page. *)
Theorem onScroll_saturates (s h c : Q) :
  (0 < h - c -> h - c <= s -> onScroll (Metrics s h c) == 1)
  /\ (s <= 0 -> onScroll (Metrics s h c) == 0).
Proof.
  split.
  - intros Hpos Hs. rewrite onScroll_scrollable by exact Hpos. unfold clamp01.
    assert (H1 : 1 <= s / (h - c)).
    { apply Qle_shift_div_l; [ exact Hpos | ]. rewrite Qmult_1_l. exact Hs. }
    rewrite (Q.max_r 0 (s / (h - c))) by (apply Qle_trans with 1; [ discriminate | exact H1 ]).
    apply Q.min_l. exact H1.
  - intros Hs. destruct (Qlt_le_dec 0 (h - c)) as [Hpos | Hle].
    + rewrite onScroll_scrollable by exact Hpos. unfold clamp01.
      assert (H0 : s / (h - c) <= 0).
      { apply Qle_shift_div_r; [ exact Hpos | ]. rewrite Qmult_0_l. exact Hs. }
      rewrite (Q.max_l 0 (s / (h - c))) by exact H0.
      apply Q.min_r. discriminate.
    + rewrite onScroll_not_scrollable by exact Hle. reflexivity.
Qed.

(** An overscroll of 50 past a range of 600, and a bounce to -20. *)
Lemma onScroll_saturates_witness :
  onScroll (Metrics 650 1000 400) == 1 /\ onScroll (Metrics (-20) 1000 400) == 0.
Proof.
  split.
  - apply (onScroll_saturates 650 1000 400); [ reflexivity | discriminate ].
  - apply (onScroll_saturates (-20) 1000 400). discriminate.
Defined.

(** X2: [clamp01] is idempotent, and applied to a progress value, as the
    page does before handing it to [LogoDerivedMark], it changes nothing. *)
Theorem clamp01_of_progress (x : Q) (doc : metrics) :
  clamp01 (clamp01 x) == clamp01 x
  /\ clamp01 (onScroll doc) == onScroll doc.
Proof.
  split; [ apply clamp01_id, clamp01_bounds | ].
  destruct doc as [s h c]. apply clamp01_id, onScroll_bounds.
Qed.

End ScrollMore.

(** ** Colour decoding and mixing *)

Section TintMore.
Import Tint.

Lemma land_255_range (z : Z) : 0 <= Z.land z 255 <= 255.
Proof.
  change 255 with (Z.ones 8) at 1 2. rewrite Z.land_ones by lia.
  pose proof (Z.mod_pos_bound z (2 ^ 8) ltac:(lia)). lia.
Qed.

Lemma hexToRgb_range (hex : string) :
  0 <= r (hexToRgb hex) <= 255
  /\ 0 <= g (hexToRgb hex) <= 255
  /\ 0 <= Tint.b (hexToRgb hex) <= 255.
Proof. unfold hexToRgb. cbn [r g Tint.b]. repeat split; apply land_255_range. Qed.

Lemma lerp_between (x y : Z) (t : Q) :
  (0 <= t <= 1)%Q -> x <= y ->
  (inject_Z x <= lerp (inject_Z x) (inject_Z y) t <= inject_Z y)%Q
  /\ (inject_Z x <= lerp (inject_Z y) (inject_Z x) t <= inject_Z y)%Q.
Proof.
  intros [H0 H1] Hxy. unfold lerp.
  assert (Hq : (inject_Z x <= inject_Z y)%Q) by (rewrite <- Zle_Qle; exact Hxy).
  repeat split; nra.
Qed.

Lemma Math_round_mono (p q : Q) : (p <= q)%Q -> Math_round p <= Math_round q.
Proof.
  intros H. unfold Math_round. apply Qfloor_resp_le.
  apply Qplus_le_l. exact H.
Qed.

Lemma Math_round_lerp_between (x y : Z) (t : Q) :
  (0 <= t <= 1)%Q ->
  Z.min x y <= Math_round (lerp (inject_Z x) (inject_Z y) t) <= Z.max x y.
Proof.
  intros Ht. destruct (Z.le_ge_cases x y) as [Hxy | Hyx].
  - destruct (lerp_between x y t Ht Hxy) as [[Hlo Hhi] _].
    apply Math_round_mono in Hlo, Hhi. rewrite Math_round_integer in Hlo, Hhi. lia.
  - destruct (lerp_between y x t Ht Hyx) as [_ [Hlo Hhi]].
    apply Math_round_mono in Hlo, Hhi. rewrite Math_round_integer in Hlo, Hhi. lia.
Qed.

(** X3: every channel decoded by [hexToRgb] is a byte, for any string; and
    for a fraction in [0, 1] every channel of the mix lies between the two
    source channels, so [mixHex] prints bytes too. *)
Theorem mixChannels_between_sources (a b : string) (t : Q) :
  (0 <= t <= 1)%Q ->
  (Z.min (r (hexToRgb a)) (r (hexToRgb b)) <= r (mixChannels a b t)
     <= Z.max (r (hexToRgb a)) (r (hexToRgb b))
   /\ Z.min (g (hexToRgb a)) (g (hexToRgb b)) <= g (mixChannels a b t)
     <= Z.max (g (hexToRgb a)) (g (hexToRgb b))
   /\ Z.min (Tint.b (hexToRgb a)) (Tint.b (hexToRgb b)) <= Tint.b (mixChannels a b t)
     <= Z.max (Tint.b (hexToRgb a)) (Tint.b (hexToRgb b)))
  /\ (0 <= r (mixChannels a b t) <= 255
      /\ 0 <= g (mixChannels a b t) <= 255
      /\ 0 <= Tint.b (mixChannels a b t) <= 255).
Proof.
  intros Ht.
  pose proof (hexToRgb_range a) as (Hra & Hga & Hba).
  pose proof (hexToRgb_range b) as (Hrb & Hgb & Hbb).
  unfold mixChannels. cbn [r g Tint.b].
  pose proof (Math_round_lerp_between (r (hexToRgb a)) (r (hexToRgb b)) t Ht).
  pose proof (Math_round_lerp_between (g (hexToRgb a)) (g (hexToRgb b)) t Ht).
  pose proof (Math_round_lerp_between (Tint.b (hexToRgb a)) (Tint.b (hexToRgb b)) t Ht).
  repeat split; lia.
Qed.

(** The tint of the [meaning] section: dark background towards the art
    colour at 0.55. *)
Lemma mixChannels_between_witness :
  0 <= r (mixChannels "#081824" "#5FA58B" (55 # 100)) <= 255
  /\ 0 <= g (mixChannels "#081824" "#5FA58B" (55 # 100)) <= 255
  /\ 0 <= Tint.b (mixChannels "#081824" "#5FA58B" (55 # 100)) <= 255.
Proof.
  apply (mixChannels_between_sources "#081824" "#5FA58B" (55 # 100)).
  split; discriminate.
Defined.

(** X4: the three-digit shorthand is not expanded: ["#"] and three
    hexadecimal digits decode to red 0, green the first digit, and blue the
    byte spelled by the last two. *)
Theorem hexToRgb_three_digits (c1 c2 c3 : ascii) (v1 v2 v3 : Z) :
  hexDigit c1 = Some v1 -> hexDigit c2 = Some v2 -> hexDigit c3 = Some v3 ->
  hexToRgb (String "#" (String c1 (String c2 (String c3 EmptyString))))
  = Rgb 0 v1 (16 * v2 + v3).
Proof.
  intros H1 H2 H3.
  pose proof (hexDigit_range _ _ H1). pose proof (hexDigit_range _ _ H2).
  pose proof (hexDigit_range _ _ H3).
  unfold hexToRgb. cbn [removeFirstHash Ascii.eqb Bool.eqb].
  unfold parseInt16. cbn [trimStart].
  rewrite (hexDigit_not_white _ _ H1), (hexDigit_no_sign _ _ _ H1).
  rewrite (hexDigit_no_0x _ _ _ _ H2), H1.
  cbn [hexPrefix]. rewrite H1, H2, H3.
  set (n := ((0 * 16 + v1) * 16 + v2) * 16 + v3).
  assert (Hn : 0 <= n < 2 ^ 12) by (subst n; lia).
  assert (Hi : toInt32 (Some (1 * n)) = n).
  { unfold toInt32. rewrite Z.mul_1_l. rewrite Z.mod_small by lia. lia. }
  rewrite Hi.
  change 255 with (Z.ones 8). rewrite !Z.land_ones by lia.
  rewrite !Z.shiftr_div_pow2 by lia.
  f_equal; subst n; Z.div_mod_to_equations; lia.
Qed.

(** White in shorthand decodes to a bright blue-green, not to white. *)
Lemma hexToRgb_three_digits_witness : hexToRgb "#fff" = Rgb 0 15 255.
Proof.
  apply (hexToRgb_three_digits "f" "f" "f" 15 15 15); reflexivity.
Defined.




End TintMore.

(** ** The preloader under any events *)

Section PreloadMore.
Import Preload Invariants.

Lemma loopHead_cancelled (loaded urls : list string) :
  loopHead true loaded urls = Returned.
Proof. destruct urls; reflexivity. Qed.

Lemma loopHead_tracked (urls rest loaded : list string) :
  loaded ++ firstOccurrences loaded rest = firstOccurrences [] urls ->
  tracked urls (State (loopHead false loaded rest) loaded (length loaded) false).
Proof.
  revert loaded. induction rest as [| url rest IH]; intros loaded Htarget;
    cbn [loopHead firstOccurrences] in *.
  - split; [ reflexivity | ]. cbn [at_ loadedRef].
    rewrite app_nil_r in Htarget. rewrite Htarget. reflexivity.
  - destruct (falsy url || has loaded url) eqn:E; [ apply IH, Htarget | ].
    apply orb_false_iff in E as [Hf Hh]. apply has_false in Hh.
    split; [ reflexivity | ]. cbn [at_ loadedRef]. auto.
Qed.

Lemma init_tracked (urls : list string) : tracked urls (init urls).
Proof. split; [ reflexivity | ]. split; reflexivity. Qed.

Lemma step_tracked (urls : list string) (s : state) (e : event) :
  tracked urls s -> tracked urls (step s e).
Proof.
  intros Ht. destruct s as [ph loaded n c]. destruct Ht as [Hn Hph].
  cbn [rerenders loadedRef at_] in *. subst n.
  destruct e as [| o | |]; cbn [step at_ cancelled loadedRef rerenders].
  - destruct ph as [us | url rest |]; try (split; [ reflexivity | exact Hph ]).
    destruct Hph as [-> ->]. destruct c.
    + rewrite loopHead_cancelled. split; [ reflexivity | ]. apply prefix_nil.
    + apply (loopHead_tracked urls urls []). reflexivity.
  - destruct ph as [us | url rest |]; try (split; [ reflexivity | exact Hph ]).
    destruct Hph as (Hf & Hfresh & Htarget).
    assert (Hafter : afterAwait (State (Awaiting url rest) loaded (length loaded) c)
                                url rest
                     = if c then State Returned loaded (length loaded) c
                       else State (loopHead false (loaded ++ [url]) rest)
                                  (loaded ++ [url]) (S (length loaded)) false).
    { unfold afterAwait. cbn [cancelled loadedRef rerenders].
      destruct c; [ reflexivity | ]. rewrite add_fresh by exact Hfresh. reflexivity. }
    assert (Hgoal : tracked urls
              (afterAwait (State (Awaiting url rest) loaded (length loaded) c)
                          url rest)).
    { rewrite Hafter. destruct c.
      - split; [ reflexivity | ]. cbn [at_ loadedRef].
        rewrite <- Htarget. apply prefix_app_r. reflexivity.
      - replace (S (length loaded)) with (length (loaded ++ [url]))
          by (rewrite length_app; cbn [length]; lia).
        apply loopHead_tracked. rewrite <- app_assoc. exact Htarget. }
    destruct o; exact Hgoal.
  - split; [ reflexivity | exact Hph ].
  - split; [ reflexivity | exact Hph ].
Qed.

Lemma exec_tracked (urls : list string) (evs : list event) (s : state) :
  tracked urls s -> tracked urls (exec s evs).
Proof.
  revert s. induction evs as [| e evs IH]; intros s Hs; [ exact Hs | ].
  cbn [exec fold_left]. apply IH, step_tracked, Hs.
Qed.

Lemma tracked_prefix (urls : list string) (s : state) :
  tracked urls s -> loadedRef s `prefix_of` firstOccurrences [] urls.
Proof.
  intros [_ Hph]. destruct (at_ s) as [us | url rest |].
  - destruct Hph as [_ ->]. apply prefix_nil.
  - destruct Hph as (_ & _ & <-). apply prefix_app_r. reflexivity.
  - exact Hph.
Qed.

(** X6: whatever events reach the preloader, a teardown included, the
    registry is an initial segment of the first occurrences of the
    non-empty urls in input order: it never holds a duplicate, the empty
    string, or a url that was not supplied. *)
Theorem registry_is_a_prefix_under_any_events (urls : list string)
    (evs : list event) :
  loadedRef (exec (init urls) evs) `prefix_of` firstOccurrences [] urls
  /\ NoDup (loadedRef (exec (init urls) evs))
  /\ (forall u : string,
        u ∈ loadedRef (exec (init urls) evs) -> u ∈ urls /\ u ≠ "").
Proof.
  pose proof (tracked_prefix urls _ (exec_tracked urls evs _ (init_tracked urls)))
    as Hpre.
  split; [ exact Hpre | ].
  destruct Hpre as [tail Htail]. split.
  - pose proof (NoDup_firstOccurrences [] urls) as Hnd.
    rewrite Htail in Hnd. apply NoDup_app in Hnd. tauto.
  - intros u Hu.
    assert (Hin : u ∈ firstOccurrences [] urls).
    { rewrite Htail. apply elem_of_app. left. exact Hu. }
    apply elem_of_firstOccurrences in Hin. tauto.
Qed.

(** X7: in every state of the preloader the number of re-renders it has
    forced equals the number of registered urls. *)
Theorem one_rerender_per_registration (urls : list string) (evs : list event) :
  rerenders (exec (init urls) evs) = length (loadedRef (exec (init urls) evs)).
Proof. exact (proj1 (exec_tracked urls evs _ (init_tracked urls))). Qed.

(** X9: a decode is only ever in flight for a supplied, non-empty url that
    is not registered: the loop never decodes a url twice. *)
Theorem decodes_only_unregistered_urls (urls : list string) (evs : list event)
    (url : string) (rest : list string) :
  at_ (exec (init urls) evs) = Awaiting url rest ->
  url ≠ "" /\ (url ∉ loadedRef (exec (init urls) evs)) /\ url ∈ urls.
Proof.
  intros Hat.
  destruct (exec_tracked urls evs _ (init_tracked urls)) as [_ Hph].
  rewrite Hat in Hph. destruct Hph as (Hf & Hfresh & Htarget).
  split; [ apply falsy_false, Hf | ]. split; [ exact Hfresh | ].
  assert (Hin : url ∈ firstOccurrences [] urls).
  { rewrite <- Htarget. apply elem_of_app. right. left. }
  apply elem_of_firstOccurrences in Hin. tauto.
Qed.

(** The same url twice: after the first registration the loop returns
    without a second decode. *)
Lemma decodes_only_unregistered_witness :
  "/pics/work.JPG" ≠ ""
  /\ at_ (exec (init ["/pics/work.JPG"; "/pics/work.JPG"])
               [Run; Settle Resolved]) = Returned.
Proof.
  split; [ | reflexivity ].
  apply (decodes_only_unregistered_urls
           ["/pics/work.JPG"; "/pics/work.JPG"] [Run] "/pics/work.JPG"
           ["/pics/work.JPG"] eq_refl).
Defined.

Lemma step_grows (s : state) (e : event) :
  loadedRef s `prefix_of` loadedRef (step s e).
Proof.
  destruct e as [| o | |]; cbn [step].
  - destruct (at_ s); reflexivity.
  - destruct (at_ s) as [us | url rest |]; try reflexivity.
    assert (H : loadedRef s `prefix_of` loadedRef (afterAwait s url rest)).
    { unfold afterAwait. destruct (cancelled s); cbn [loadedRef]; [ reflexivity | ].
      unfold add. destruct (has (loadedRef s) url); [ reflexivity | ].
      apply prefix_app_r. reflexivity. }
    destruct o; exact H.
  - reflexivity.
  - reflexivity.
Qed.

(** X8: from any state and under any events the registry only grows at its
    end, so an answer [true] of [isLoaded] is never taken back. *)
Theorem registry_only_grows (s : state) (evs : list event) :
  loadedRef s `prefix_of` loadedRef (exec s evs)
  /\ (forall url : option string,
        isLoaded (loadedRef s) url = true ->
        isLoaded (loadedRef (exec s evs)) url = true).
Proof.
  assert (Hpre : loadedRef s `prefix_of` loadedRef (exec s evs)).
  { revert s. induction evs as [| e evs IH]; intros s; [ reflexivity | ].
    cbn [exec fold_left]. etransitivity; [ apply step_grows | apply IH ]. }
  split; [ exact Hpre | ].
  intros [u |]; [ | reflexivity ]. unfold isLoaded.
  destruct (falsy u); [ reflexivity | ].
  rewrite !has_true. destruct Hpre as [tail ->]. intros Hu.
  apply elem_of_app. left. exact Hu.
Qed.

Lemma registry_only_grows_witness :
  isLoaded (loadedRef (exec (State Returned ["/pics/work.JPG"] 1 false)
                            [Cleanup; Run; Settle Rejected]))
           (Some "/pics/work.JPG") = true.
Proof.
  apply (registry_only_grows (State Returned ["/pics/work.JPG"] 1 false)
           [Cleanup; Run; Settle Rejected]).
  reflexivity.
Defined.

End PreloadMore.

(** ** The crossfade once the images are registered *)

Section CrossfadeMore.
Import Crossfade Invariants.

Lemma keyOf_cases (a : string) :
  (keyOf a = a /\ imageOf a <> None) \/ (keyOf a = "none" /\ cfgFor a = None).
Proof.
  unfold keyOf, imageOf, cfgFor.
  repeat (case_bool_decide; [ subst; left; split; [ reflexivity | discriminate ] | ]).
  right. split; reflexivity.
Qed.

Lemma imageOf_in_preloadUrls (k u : string) :
  imageOf k = Some u -> u ∈ preloadUrls.
Proof.
  unfold imageOf, cfgFor, preloadUrls.
  repeat case_bool_decide; cbn [image]; intros [= <-];
    repeat first [ apply list_elem_of_here | apply list_elem_of_further ].
Qed.

Lemma preloadUrls_have_keys (u : string) :
  u ∈ preloadUrls -> exists k : string, keyOf k = k /\ imageOf k = Some u.
Proof.
  intros Hu. unfold preloadUrls in Hu.
  repeat (apply elem_of_cons in Hu as [-> | Hu]);
    [ exists "hero" | exists "meaning" | exists "pattern" | exists "mechanism"
    | exists "work" | exists "involved" | apply elem_of_nil in Hu; contradiction ];
    split; reflexivity.
Qed.

(** X10: the list handed to the preloader covers the configurations: every
    image a key can display is among [preloadUrls], so a complete preload
    run registers it, and every url of [preloadUrls] is the image of a
    section key. *)
Theorem preloadUrls_are_the_configured_images (delay : nat)
    (ds : list Preload.decode) :
  (forall k u : string, imageOf k = Some u -> u ∈ preloadUrls)
  /\ (forall u : string,
        u ∈ preloadUrls -> exists k : string, keyOf k = k /\ imageOf k = Some u)
  /\ ((length preloadUrls <= length ds)%nat ->
      forall k : string,
        Preload.isLoaded
          (Preload.loadedRef
             (Preload.exec (Preload.init preloadUrls) (Preload.schedule delay ds)))
          (imageOf k) = true).
Proof.
  split; [ apply imageOf_in_preloadUrls | ].
  split; [ apply preloadUrls_have_keys | ].
  intros Hlen k. rewrite exec_schedule by exact Hlen. cbn [Preload.loadedRef].
  destruct (imageOf k) as [u |] eqn:Hk; [ | reflexivity ].
  unfold Preload.isLoaded. rewrite (imageOf_nonempty _ _ Hk).
  apply has_true, elem_of_firstOccurrences.
  split; [ exact (imageOf_in_preloadUrls _ _ Hk) | ].
  split; [ apply falsy_false, (imageOf_nonempty _ _ Hk) | apply not_elem_of_nil ].
Qed.

(** Six decodes, two of them rejected. *)
Lemma preloadUrls_witness :
  Preload.isLoaded
    (Preload.loadedRef
       (Preload.exec (Preload.init preloadUrls)
          (Preload.schedule 0
             [ Preload.Decode 0 Preload.Rejected; Preload.Decode 0 Preload.Resolved;
               Preload.Decode 0 Preload.Resolved; Preload.Decode 0 Preload.Rejected;
               Preload.Decode 0 Preload.Resolved; Preload.Decode 0 Preload.Resolved ])))
    (imageOf "work") = true.
Proof.
  refine (proj2 (proj2 (preloadUrls_are_the_configured_images 0
            [ Preload.Decode 0 Preload.Rejected; Preload.Decode 0 Preload.Resolved;
              Preload.Decode 0 Preload.Resolved; Preload.Decode 0 Preload.Rejected;
              Preload.Decode 0 Preload.Resolved; Preload.Decode 0 Preload.Resolved ]))
            _ "work").
  reflexivity.
Defined.

Lemma step_synced (s : state) (e : event) : synced s -> synced (step s e).
Proof.
  intros (Hdeps & Hfull & Hsync). destruct e as [a | pe].
  - cbn [step]. destruct (render_frame a s) as (Ha & Hd & Hp).
    split; [ rewrite Ha; exact Hd | ].
    split; [ unfold registry; rewrite Hp; exact Hfull | ].
    rewrite Ha. unfold render, isLoadedIdentity.
    case_bool_decide as Hsame.
    + cbn [displayKey]. rewrite Hsync. rewrite Hdeps in Hsame. congruence.
    + destruct (effect_displayKey (keyOf a)
                  (State a (Some (keyOf a, 0%nat)) (displayKey s) (preloader s)))
        as [[Hk _] | [_ (u & Hu & Hnot)]]; [ exact Hk | exfalso ].
      apply Hnot, Hfull.
      exact (imageOf_in_preloadUrls _ _ Hu).
  - assert (Hs : settled (active s) s).
    { split; [ exact Hdeps | left; exact Hsync ]. }
    pose proof (step_settled _ s (Preloader pe) Hs) as [Hdeps' _].
    pose proof (step_Preloader_displayKey _ s pe Hs) as Hk.
    assert (Hact : active (step s (Preloader pe)) = active s).
    { cbn [step]. case_bool_decide; [ reflexivity | ].
      apply render_frame. }
    assert (Hreg : forall u, u ∈ registry s -> u ∈ registry (step s (Preloader pe))).
    { intros u Hu. unfold registry. cbn [step]. case_bool_decide; cbn [preloader].
      - apply registry_grows, Hu.
      - destruct (render_frame (active s)
                    (State (active s) (lastDeps s) (displayKey s)
                           (Preload.step (preloader s) pe))) as (_ & _ & ->).
        cbn [preloader]. apply registry_grows, Hu. }
    split; [ exact Hdeps' | ].
    split; [ intros u Hu; apply Hreg, Hfull, Hu | ].
    rewrite Hk, Hact. exact Hsync.
Qed.

Lemma exec_synced (evs : list event) (s : state) :
  synced s -> synced (exec s evs).
Proof.
  revert s. induction evs as [| e evs IH]; intros s Hs; [ exact Hs | ].
  cbn [exec fold_left]. apply IH, step_synced, Hs.
Qed.

Lemma exec_preloader_events (mounted : string) (pevs : list Preload.event)
    (s : state) :
  settled mounted s ->
  preloader (exec s (map Preloader pevs)) = Preload.exec (preloader s) pevs
  /\ displayKey (exec s (map Preloader pevs)) = displayKey s
  /\ active (exec s (map Preloader pevs)) = active s
  /\ settled mounted (exec s (map Preloader pevs)).
Proof.
  revert s. induction pevs as [| pe pevs IH]; intros s Hs; [ auto | ].
  cbn [map exec fold_left Preload.exec].
  pose proof (step_settled mounted s (Preloader pe) Hs) as Hs'.
  destruct (IH _ Hs') as (Hp & Hk & Ha & Hfinal).
  unfold exec in *. rewrite Hp, Hk, Ha.
  rewrite (step_Preloader_displayKey mounted s pe Hs).
  assert (Hstep : preloader (step s (Preloader pe)) = Preload.step (preloader s) pe
                  /\ active (step s (Preloader pe)) = active s).
  { cbn [step]. case_bool_decide; [ auto | ].
    destruct (render_frame (active s)
                (State (active s) (lastDeps s) (displayKey s)
                       (Preload.step (preloader s) pe))) as (-> & _ & ->).
    auto. }
  destruct Hstep as [-> ->]. auto.
Qed.

Lemma mount_shows_key (a : string) :
  displayKey (mount a) = keyOf a /\ active (mount a) = a.
Proof.
  unfold mount.
  destruct (render_frame a (State a None (keyOf a) (Preload.init preloadUrls)))
    as (Ha & _ & _).
  destruct (render_displayKey a (State a None (keyOf a) (Preload.init preloadUrls)))
    as [[Hk _] | Hk]; auto.
Qed.

(** X11: when the preloader completes before the active section changes,
    the displayed key is the active key from then on, whatever section
    changes and preloader events follow. *)
Theorem display_follows_active_after_preload (a : string) (delay : nat)
    (ds : list Preload.decode) (evs : list event) :
  (length preloadUrls <= length ds)%nat ->
  displayKey (exec (exec (mount a) (map Preloader (Preload.schedule delay ds))) evs)
  = keyOf (active (exec (exec (mount a)
                                (map Preloader (Preload.schedule delay ds))) evs)).
Proof.
  intros Hlen.
  apply (exec_synced evs).
  destruct (exec_preloader_events a (Preload.schedule delay ds) (mount a)
              (mount_settled a)) as (Hp & Hk & Ha & [Hdeps _]).
  split; [ exact Hdeps | ]. split.
  - intros u Hu. unfold registry. rewrite Hp.
    assert (Hm : preloader (mount a) = Preload.init preloadUrls)
      by (unfold mount; apply render_frame).
    rewrite Hm.
    rewrite exec_schedule by exact Hlen. cbn [Preload.loadedRef].
    apply elem_of_firstOccurrences.
    split; [ exact Hu | ]. split; [ | apply not_elem_of_nil ].
    destruct (preloadUrls_have_keys u Hu) as (k & _ & Hk').
    apply falsy_false. exact (imageOf_nonempty _ _ Hk').
  - rewrite Hk, Ha. destruct (mount_shows_key a) as [-> ->]. reflexivity.
Qed.

(** Six decodes settle, the third one rejected; then the page scrolls
    through two sections. *)
Lemma display_follows_active_witness :
  displayKey
    (exec (exec (mount "hero")
                (map Preloader
                   (Preload.schedule 1
                      [ Preload.Decode 0 Preload.Resolved;
                        Preload.Decode 2 Preload.Resolved;
                        Preload.Decode 0 Preload.Rejected;
                        Preload.Decode 1 Preload.Resolved;
                        Preload.Decode 0 Preload.Resolved;
                        Preload.Decode 0 Preload.Resolved ])))
          [ Active "pattern"; Active "work" ])
  = "work".
Proof.
  apply (display_follows_active_after_preload "hero" 1
           [ Preload.Decode 0 Preload.Resolved;
             Preload.Decode 2 Preload.Resolved;
             Preload.Decode 0 Preload.Rejected;
             Preload.Decode 1 Preload.Resolved;
             Preload.Decode 0 Preload.Resolved;
             Preload.Decode 0 Preload.Resolved ]
           [ Active "pattern"; Active "work" ]).
  reflexivity.
Defined.

Lemma step_blank (mounted : string) (s : state) (e : event) :
  settled mounted s ->
  (keyOf (active s) = "none" -> displayKey s = "none") ->
  keyOf (active (step s e)) = "none" -> displayKey (step s e) = "none".
Proof.
  intros Hs Hblank Hnone. pose proof Hs as [Hdeps _]. destruct e as [a | pe].
  - cbn [step] in *. destruct (render_frame a s) as (Ha & _ & _).
    rewrite Ha in Hnone. unfold render, isLoadedIdentity.
    case_bool_decide as Hsame.
    + cbn [displayKey]. apply Hblank. rewrite Hdeps in Hsame. congruence.
    + unfold effect. rewrite bool_decide_eq_true_2 by exact Hnone. reflexivity.
  - rewrite (step_Preloader_displayKey mounted s pe Hs). apply Hblank.
    revert Hnone. cbn [step]. case_bool_decide; [ auto | ].
    destruct (render_frame (active s)
                (State (active s) (lastDeps s) (displayKey s)
                       (Preload.step (preloader s) pe))) as (-> & _ & _).
    auto.
Qed.

(** X12: in every state reached from the mount, while the active id is not
    one of the six section ids the component draws no configuration at all,
    whatever the registry holds. *)
Theorem no_background_outside_sections (a : string) (evs : list event) :
  keyOf (active (exec (mount a) evs)) = "none" ->
  displayKey (exec (mount a) evs) = "none"
  /\ rendered (exec (mount a) evs) = None.
Proof.
  intros Hnone.
  assert (H : displayKey (exec (mount a) evs) = "none").
  { revert Hnone.
    assert (Hinit : keyOf (active (mount a)) = "none" -> displayKey (mount a) = "none").
    { unfold mount.
      destruct (render_frame a (State a None (keyOf a) (Preload.init preloadUrls)))
        as (-> & _ & _).
      destruct (render_displayKey a (State a None (keyOf a) (Preload.init preloadUrls)))
        as [[-> _] | ->]; auto. }
    pose proof (mount_settled a) as Hs.
    generalize dependent (mount a).
    induction evs as [| e evs IH]; intros s Hinit Hs; [ exact Hinit | ].
    cbn [exec fold_left]. apply IH.
    - apply (step_blank a); assumption.
    - apply step_settled, Hs. }
  split; [ exact H | ]. unfold rendered. rewrite H. reflexivity.
Qed.

(** The page scrolls from the hero to a region that is no section. *)
Lemma no_background_witness :
  rendered (exec (mount "hero") [Active "contact"]) = None.
Proof.
  apply (no_background_outside_sections "hero" [Active "contact"]).
  reflexivity.
Defined.

End CrossfadeMore.

(** ** The active-section detector between frames *)

Section DetectorMore.
Import ActiveSection.

Context {num : Type}.
Variables (zero minusOne epsilon : num).
Variable plus : num -> num -> num.
Variable gt : num -> num -> bool.

Lemma fold_visit_start (ratios : gmap string num) (ids : list string)
    (score0 : num) :
  (forall id0, fold_left (visit zero epsilon plus gt ratios) ids (id0, score0)
               = (id0, score0))
  \/ (exists best, forall id0,
        fold_left (visit zero epsilon plus gt ratios) ids (id0, score0) = best).
Proof.
  revert score0. induction ids as [| id ids IH]; intros score0; [ left; reflexivity | ].
  cbn [fold_left]. unfold visit at 2 4. cbn [snd].
  destruct (gt (scoreOf zero ratios id) (plus score0 epsilon)).
  - right. eexists. intros id0. reflexivity.
  - apply IH.
Qed.

Lemma same_or_other (prev best : string) :
  (if bool_decide (prev = best) then prev else best) = best.
Proof. case_bool_decide; [ assumption | reflexivity ]. Qed.

(** X14: the recomputation is stable: run again on unchanged ratios with its
    own result as the previous id, it returns that result. *)
Theorem commitBest_idempotent (sectionIds : list string)
    (ratios : gmap string num) (prev : string) :
  commitBest zero minusOne epsilon plus gt sectionIds ratios
    (commitBest zero minusOne epsilon plus gt sectionIds ratios prev)
  = commitBest zero minusOne epsilon plus gt sectionIds ratios prev.
Proof.
  unfold commitBest. rewrite !same_or_other.
  destruct (fold_visit_start ratios sectionIds minusOne) as [Hkeep | [best Hbest]].
  - rewrite !Hkeep. cbn [fst]. unfold orElse.
    destruct (Preload.falsy prev) eqn:Hp.
    + destruct (Preload.falsy (firstOrEmpty sectionIds)) eqn:Hf.
      * rewrite Hp, Hf. reflexivity.
      * rewrite Hf, Hf. reflexivity.
    + rewrite Hp, Hp, Hp. reflexivity.
  - rewrite !Hbest. destruct (Preload.falsy (fst best)); reflexivity.
Qed.

Lemma exec_batches (sectionIds : list string) (bs : list (list entry))
    (s : state) :
  observing s = true ->
  exec zero minusOne epsilon plus gt sectionIds s (map Entries bs)
  = State (active s) (fold_left (record zero) (concat bs) (ratios s))
          (raf s || negb (bool_decide (bs = []))) true.
Proof.
  revert s. induction bs as [| es bs IH]; intros s Hobs.
  - cbn. rewrite orb_false_r. destruct s; cbn in *; subst; reflexivity.
  - cbn [map exec fold_left]. unfold step at 2. rewrite Hobs.
    fold (exec zero minusOne epsilon plus gt sectionIds
            (State (active s) (fold_left (record zero) es (ratios s)) true true)
            (map Entries bs)).
    rewrite IH by reflexivity. cbn [active ratios raf concat].
    rewrite fold_left_app, orb_true_r. reflexivity.
Qed.

(** X13: batches that arrive between two frames are coalesced: no batch
    changes the active id, the one frame that follows commits the best
    candidate of the ratios left by all the batches in order, and a further
    frame without a new batch does nothing. *)
Theorem batches_coalesce_into_one_frame (sectionIds : list string)
    (bs : list (list entry)) (s : state) :
  observing s = true -> bs <> [] ->
  active (exec zero minusOne epsilon plus gt sectionIds s (map Entries bs))
  = active s
  /\ exec zero minusOne epsilon plus gt sectionIds s (map Entries bs ++ [Frame])
     = State (commitBest zero minusOne epsilon plus gt sectionIds
                (fold_left (record zero) (concat bs) (ratios s)) (active s))
             (fold_left (record zero) (concat bs) (ratios s)) false true
  /\ exec zero minusOne epsilon plus gt sectionIds s
          (map Entries bs ++ [Frame; Frame])
     = exec zero minusOne epsilon plus gt sectionIds s (map Entries bs ++ [Frame]).
Proof.
  intros Hobs Hbs.
  assert (Hraf : raf s || negb (bool_decide (bs = [])) = true).
  { rewrite bool_decide_eq_false_2 by exact Hbs. apply orb_true_r. }
  pose proof (exec_batches sectionIds bs s Hobs) as Hex. rewrite Hraf in Hex.
  split; [ rewrite Hex; reflexivity | ].
  unfold exec in *. rewrite !fold_left_app, Hex. split; reflexivity.
Qed.

Lemma record_other (m : gmap string num) (e : entry) (id : string) :
  target e <> id -> scoreOf zero (record zero m e) id = scoreOf zero m id.
Proof.
  intros Hne. unfold scoreOf, record. rewrite lookup_insert_ne by exact Hne.
  reflexivity.
Qed.

Lemma fold_record_other (es : list entry) (m : gmap string num) (id : string) :
  (forall e, e ∈ es -> target e <> id) ->
  scoreOf zero (fold_left (record zero) es m) id = scoreOf zero m id.
Proof.
  revert m. induction es as [| e es IH]; intros m Hall; [ reflexivity | ].
  cbn [fold_left]. rewrite IH.
  - apply record_other, Hall. left.
  - intros e' Hin. apply Hall. right. exact Hin.
Qed.

(** X15: within the samples the observer has delivered the last one for a
    section wins: its ratio when it intersects and 0 when it does not, which
    is also the score of a section no sample ever named. *)
Theorem last_sample_wins (before after : list entry) (e : entry)
    (m : gmap string num) :
  (forall e', e' ∈ after -> target e' <> target e) ->
  scoreOf zero (fold_left (record zero) (before ++ e :: after) m) (target e)
  = (if isIntersecting e then intersectionRatio e else zero)
  /\ (forall id, m !! id = None ->
        (forall e', e' ∈ before ++ e :: after -> target e' <> id) ->
        scoreOf zero (fold_left (record zero) (before ++ e :: after) m) id = zero).
Proof.
  intros Hafter. split.
  - rewrite fold_left_app. cbn [fold_left].
    rewrite fold_record_other by exact Hafter.
    unfold scoreOf, record. rewrite lookup_insert_eq. reflexivity.
  - intros id Hnone Hall. rewrite fold_record_other by exact Hall.
    unfold scoreOf. rewrite Hnone. reflexivity.
Qed.

End DetectorMore.

(** Two batches reach the detector before the frame: [pattern] ends at 0.7. *)
Lemma batches_coalesce_witness :
  ActiveSection.active
    (ActiveSection.execF ActiveSection.pageSections
       (ActiveSection.mountF ActiveSection.pageSections (fun _ => true))
       (map ActiveSection.Entries
          [ [ ActiveSection.Entry "hero" true 0.9%float ];
            [ ActiveSection.Entry "hero" false 0%float;
              ActiveSection.Entry "pattern" true 0.7%float ] ]))
  = "hero".
Proof.
  apply (batches_coalesce_into_one_frame 0%float (-1)%float 1e-6%float
           PrimFloat.add ActiveSection.gtF ActiveSection.pageSections
           [ [ ActiveSection.Entry "hero" true 0.9%float ];
             [ ActiveSection.Entry "hero" false 0%float;
               ActiveSection.Entry "pattern" true 0.7%float ] ]
           (ActiveSection.mountF ActiveSection.pageSections (fun _ => true)));
    [ reflexivity | discriminate ].
Defined.

(** [hero] is sampled at 0.9 and then leaves the viewport. *)
Lemma last_sample_witness :
  ActiveSection.scoreOf 0%float
    (fold_left (ActiveSection.record 0%float)
       ([ ActiveSection.Entry "hero" true 0.9%float ]
        ++ ActiveSection.Entry "hero" false 0.3%float
        :: [ ActiveSection.Entry "pattern" true 0.7%float ]) ∅) "hero"
  = 0%float.
Proof.
  refine (proj1 (last_sample_wins 0%float
                   [ ActiveSection.Entry "hero" true 0.9%float ]
                   [ ActiveSection.Entry "pattern" true 0.7%float ]
                   (ActiveSection.Entry "hero" false 0.3%float) ∅ _)).
  intros e' H. apply list_elem_of_singleton in H as ->. discriminate.
Defined.

(** ** Centre-focus opacity *)

Section FocusMore.
Import Focus.

Variable Math_pow : float -> float -> float.

Lemma exec_scrolls (o : options) (s : state) (n : nat) :
  exec Math_pow o s (repeat ScrollOrResize (S n)) = State true (raw s).
Proof.
  assert (Hmore : forall k r, exec Math_pow o (State true r) (repeat ScrollOrResize k)
                              = State true r).
  { induction k as [| k IH]; intros r; [ reflexivity | exact (IH r) ]. }
  cbn [repeat exec fold_left]. unfold step at 2.
  destruct (raf s) eqn:E.
  - destruct s as [f r]. cbn in E. subst f. apply Hmore.
  - apply Hmore.
Qed.

(** X18: scroll and resize events between two frames are coalesced: they
    leave the motion value alone and request one frame, and that frame sets
    the value once; while the ref holds no element the value stays what it
    was, [maxOpacity] from the mount on. *)
Theorem focus_updates_once_per_frame (o : options) (s : state) (n : nat)
    (innerHeight : float) (el : option rect) (frames : list float) :
  exec Math_pow o s (repeat ScrollOrResize (S n)) = State true (raw s)
  /\ exec Math_pow o s (repeat ScrollOrResize (S n) ++ [Frame innerHeight el])
     = update Math_pow o innerHeight el s
  /\ raw (exec Math_pow o (mount Math_pow o innerHeight None)
               (concat (map (fun h => [ScrollOrResize; Frame h None]) frames)))
     = maxOpacity o.
Proof.
  split; [ apply exec_scrolls | ]. split.
  - unfold exec. rewrite fold_left_app.
    fold (exec Math_pow o s (repeat ScrollOrResize (S n))).
    rewrite exec_scrolls. destruct el; reflexivity.
  - assert (H : forall s0, raw (exec Math_pow o s0
                (concat (map (fun h => [ScrollOrResize; Frame h None]) frames)))
              = raw s0).
    { induction frames as [| h frames IH]; intros s0; [ reflexivity | ].
      cbn [map concat app exec fold_left].
      unfold exec in IH. rewrite IH.
      destruct s0 as [[] r]; reflexivity. }
    rewrite H. reflexivity.
Qed.

(** In focus with options 0.3 and 0.9, and the square computed as a
    product: the value set is 0.3 + (0.9 - 0.3) * 1 as binary64 rounds it,
    which lies above 0.9. *)
Example target_in_focus_rounds_above_maxOpacity :
  Focus.target (fun x _ => (x * x)%float) (Focus.Options 0.3 0.9 0.6)
    1000 (Focus.Rect 400 200)
  = (0.3 + (0.9 - 0.3) * 1)%float
  /\ PrimFloat.ltb 0.9
       (Focus.target (fun x _ => (x * x)%float) (Focus.Options 0.3 0.9 0.6)
          1000 (Focus.Rect 400 200)) = true.
Proof. split; vm_compute; reflexivity. Qed.

End FocusMore.

(** ** Ambient audio *)

Section AudioMore.
Import Audio.

Variable resolve : string -> string.

Lemma trackOf_empty (t : tracks) (activeId : string) :
  hero t = "" -> meaning t = "" -> pattern t = "" -> mechanism t = "" ->
  trackOf t activeId = "".
Proof.
  intros H1 H2 H3 H4. unfold trackOf. repeat case_bool_decide; auto.
Qed.

(** X19: with a track table whose four entries are empty, as the page ships
    it, no sequence of section changes, audio toggles and settled plays ever
    creates the audio element. *)
Theorem no_audio_without_tracks (t : tracks) (activeId : string)
    (evs : list event) :
  hero t = "" -> meaning t = "" -> pattern t = "" -> mechanism t = "" ->
  audioRef (exec resolve t (mount resolve t activeId) evs) = None.
Proof.
  intros H1 H2 H3 H4.
  assert (Hstep : forall s e, audioRef s = None ->
                              audioRef (step resolve t s e) = None).
  { intros s e Hs. destruct e as [id en | ok]; cbn [step]; [ | exact Hs ].
    case_bool_decide; [ exact Hs | ].
    unfold effect. cbn [audioRef]. rewrite Hs.
    destruct en; cbn [negb]; [ | reflexivity ].
    rewrite (trackOf_empty t id H1 H2 H3 H4). reflexivity. }
  assert (Hinit : audioRef (mount resolve t activeId) = None).
  { apply Hstep. reflexivity. }
  generalize dependent (mount resolve t activeId).
  induction evs as [| e evs IH]; intros s Hs; [ exact Hs | ].
  cbn [exec fold_left]. apply IH, Hstep, Hs.
Qed.

Lemma effect_element (t : tracks) (activeId : string) (enabled : bool)
    (s : state) (a : audio) :
  (forall a0, audioRef s = Some a0 -> loop a0 = true /\ volume a0 = (35 # 100)%Q) ->
  audioRef (effect resolve t activeId enabled s) = Some a ->
  (loop a = true /\ volume a = (35 # 100)%Q)
  /\ (enabled = false -> paused a = true /\ src a = "").
Proof.
  intros Hinv. unfold effect. destruct enabled; cbn [negb].
  - destruct (Preload.falsy (trackOf t activeId)).
    + intros H. split; [ apply Hinv, H | discriminate ].
    + destruct (audioRef s) as [a0 |] eqn:Href.
      * destruct (Hinv a0 eq_refl) as [Hl Hv].
        case_bool_decide; cbn [audioRef]; intros [= <-];
          (split; [ auto | discriminate ]).
      * case_bool_decide; cbn [audioRef]; intros [= <-];
          (split; [ auto | discriminate ]).
  - destruct (audioRef s) as [a0 |] eqn:Href.
    + destruct (Hinv a0 eq_refl) as [Hl Hv].
      cbn [audioRef]. intros [= <-]. auto.
    + rewrite Href. discriminate.
Qed.

(** X20: whenever the audio element exists it loops at volume 0.35, and
    while the last render had audio disabled it is paused with an empty
    source, for every track table and every sequence of events. *)
Theorem audio_element_invariant (t : tracks) (activeId : string)
    (evs : list event) (a : audio) :
  audioRef (exec resolve t (mount resolve t activeId) evs) = Some a ->
  (loop a = true /\ volume a = (35 # 100)%Q)
  /\ (forall id : string,
        lastDeps (exec resolve t (mount resolve t activeId) evs) = Some (id, false) ->
        paused a = true /\ src a = "").
Proof.
  assert (Hstep : forall s e,
            (forall a0, audioRef s = Some a0 ->
               (loop a0 = true /\ volume a0 = (35 # 100)%Q)
               /\ (forall id, lastDeps s = Some (id, false) ->
                     paused a0 = true /\ src a0 = "")) ->
            forall a0, audioRef (step resolve t s e) = Some a0 ->
               (loop a0 = true /\ volume a0 = (35 # 100)%Q)
               /\ (forall id, lastDeps (step resolve t s e) = Some (id, false) ->
                     paused a0 = true /\ src a0 = "")).
  { intros s e Hinv a0. destruct e as [id en | ok]; cbn [step].
    - case_bool_decide as Hsame; [ apply Hinv | ].
      intros Ha0.
      destruct (effect_element t id en
                  (State (audioRef s) (ready s) (Some (id, en))) a0) as [Hlv Hoff].
      + intros a1 Ha1. apply Hinv, Ha1.
      + exact Ha0.
      + split; [ exact Hlv | ]. intros id' Hdeps. apply Hoff.
        assert (Hd : lastDeps (effect resolve t id en
                                 (State (audioRef s) (ready s) (Some (id, en))))
                     = Some (id, en)).
        { unfold effect. cbn [audioRef ready lastDeps].
          destruct en; cbn [negb].
          - destruct (Preload.falsy _); [ reflexivity | ].
            destruct (audioRef s); case_bool_decide; reflexivity.
          - destruct (audioRef s); reflexivity. }
        rewrite Hd in Hdeps. congruence.
    - cbn [audioRef lastDeps]. apply Hinv. }
  assert (Hinit : forall a0, audioRef (mount resolve t activeId) = Some a0 ->
               (loop a0 = true /\ volume a0 = (35 # 100)%Q)
               /\ (forall id, lastDeps (mount resolve t activeId) = Some (id, false) ->
                     paused a0 = true /\ src a0 = "")).
  { apply Hstep. cbn [audioRef]. discriminate. }
  revert a. generalize dependent (mount resolve t activeId).
  induction evs as [| e evs IH]; intros s Hs a Ha; [ apply Hs, Ha | ].
  cbn [exec fold_left] in *. apply (IH (step resolve t s e)); [ | exact Ha ].
  apply Hstep, Hs.
Qed.

End AudioMore.

(** The shipped table under two toggles of the audio button. *)
Lemma no_audio_witness :
  Audio.audioRef
    (Audio.exec (fun url => url) Audio.AUDIO_TRACKS
       (Audio.mount (fun url => url) Audio.AUDIO_TRACKS "hero")
       [ Audio.Props "hero" true; Audio.Props "meaning" true;
         Audio.Props "meaning" false ])
  = None.
Proof.
  apply (no_audio_without_tracks (fun url => url) Audio.AUDIO_TRACKS "hero"
           [ Audio.Props "hero" true; Audio.Props "meaning" true;
             Audio.Props "meaning" false ]); reflexivity.
Defined.

(** A table with a track for the hero: audio is switched on, then off. *)
Lemma audio_element_witness :
  exists a : Audio.audio,
    Audio.audioRef
      (Audio.exec (fun url => url) (Audio.Tracks "/audio/hero.mp3" "" "" "")
         (Audio.mount (fun url => url) (Audio.Tracks "/audio/hero.mp3" "" "" "")
                      "hero")
         [ Audio.Props "hero" true; Audio.PlaySettled true;
           Audio.Props "hero" false ])
    = Some a
    /\ Audio.paused a = true /\ Audio.src a = "".
Proof.
  eexists. split; [ reflexivity | ].
  refine (proj2 (audio_element_invariant (fun url => url)
            (Audio.Tracks "/audio/hero.mp3" "" "" "") "hero"
            [ Audio.Props "hero" true; Audio.PlaySettled true;
              Audio.Props "hero" false ] _ _) "hero" _);
    reflexivity.
Defined.

(** ** Role cards *)

Section RoleCardMore.
Import RoleCard.

Lemma step_open_enabled (m : mode) (s : state) (e : event) :
  (open s = true -> useRoleCardToggleEnabled m (touchLike s) = true) ->
  (listening s = false -> touchLike s = false) ->
  (open (step m s e) = true ->
   useRoleCardToggleEnabled m (touchLike (step m s e)) = true)
  /\ (listening (step m s e) = false -> touchLike (step m s e) = false)
  /\ listening (step m s e) = listening s.
Proof.
  intros Hopen Hlisten. destruct s as [tl op li].
  cbn [open touchLike listening] in Hopen, Hlisten.
  destruct e as [matches | onInteractive | key]; unfold step;
    cbn [open touchLike listening].
  - destruct m, tl, op, li, matches; cbn in *;
      repeat split; intros; try discriminate; auto.
  - destruct m, tl, op, li, onInteractive; cbn in *;
      repeat split; intros; try discriminate; auto.
  - destruct (isToggleKey key); destruct m, tl, op, li; cbn in *;
      repeat split; intros; try discriminate; auto.
Qed.

(** X21: a role card is never open while toggling is disabled, under any
    sequence of clicks, key presses and media changes: in mode [off] it
    never opens, and in mode [auto] it never opens where [matchMedia] is
    missing. *)
Theorem role_card_open_only_when_enabled (m : mode) (matches : option bool)
    (evs : list event) :
  (open (exec m (mount m matches) evs) = true ->
   useRoleCardToggleEnabled m (touchLike (exec m (mount m matches) evs)) = true)
  /\ (m = Off -> open (exec m (mount m matches) evs) = false)
  /\ (m = Auto -> matches = None -> open (exec m (mount m matches) evs) = false).
Proof.
  assert (Hinit : (open (mount m matches) = true ->
                   useRoleCardToggleEnabled m (touchLike (mount m matches)) = true)
                  /\ (listening (mount m matches) = false ->
                      touchLike (mount m matches) = false)).
  { unfold mount, closeIfDisabled.
    destruct matches as [b |]; cbn [touchLike];
      destruct (useRoleCardToggleEnabled m _); cbn [negb open touchLike listening];
      split; auto; discriminate. }
  assert (Hall : (open (exec m (mount m matches) evs) = true ->
                  useRoleCardToggleEnabled m
                    (touchLike (exec m (mount m matches) evs)) = true)
                 /\ (listening (exec m (mount m matches) evs) = false ->
                     touchLike (exec m (mount m matches) evs) = false)
                 /\ listening (exec m (mount m matches) evs)
                    = listening (mount m matches)).
  { generalize dependent (mount m matches).
    induction evs as [| e evs IH]; intros s [Ho Hl]; [ auto | ].
    cbn [exec fold_left].
    destruct (step_open_enabled m s e Ho Hl) as (Ho' & Hl' & Hsame).
    destruct (IH (step m s e) (conj Ho' Hl')) as (H1 & H2 & H3).
    unfold exec in *.
    split; [ exact H1 | ]. split; [ exact H2 | ]. rewrite H3. exact Hsame. }
  destruct Hall as (Hopen & Hlisten & Hsame).
  split; [ exact Hopen | ]. split.
  - intros ->. destruct (open (exec Off (mount Off matches) evs)) eqn:E;
      [ | reflexivity ].
    specialize (Hopen eq_refl). discriminate Hopen.
  - intros -> ->. destruct (open (exec Auto (mount Auto None) evs)) eqn:E;
      [ | reflexivity ].
    specialize (Hopen eq_refl). cbn [useRoleCardToggleEnabled] in Hopen.
    rewrite Hlisten in Hopen; [ discriminate Hopen | ].
    rewrite Hsame. reflexivity.
Qed.

(** Mode [auto] on a desktop whose pointer turns coarse and fine again: the
    card opened by a tap is closed when toggling is disabled. *)
Lemma role_card_witness :
  open (exec Auto (mount Auto (Some false))
          [ MediaChange true; Click false; MediaChange false ]) = false
  /\ open (exec Off (mount Off (Some true)) [ Click false; KeyDown "Enter" ]) = false.
Proof.
  split.
  - reflexivity.
  - exact (proj1 (proj2 (role_card_open_only_when_enabled Off (Some true)
                           [ Click false; KeyDown "Enter" ])) eq_refl).
Defined.

End RoleCardMore.
